(** * Combat engine of the creature battle game: model and verified properties

    The development embeds [creature.py] (class [Creature]), the battle
    logic of [battle.py] (class [Battle]) and the way [main.py] (class
    [Game]) sets a battle up and levels the player, and proves the properties
    the specification states about them, then further properties of the code.

    Modelling conventions.
    - Python integers are [Z]; strings are [string].
    - [float] is IEEE-754 binary64, modelled by the reference operations of
      [SpecFloat] at precision 53 and maximal exponent 1024 (round to nearest,
      ties to even), which is what CPython's [float] computes.
    - The module-level generator of [random] is an explicit entropy tape: an
      arbitrary infinite sequence of integers and a cursor. Every behaviour of
      the real generator is the behaviour of the model on some tape, as to
      the values the calls return; a call takes one cell of the tape, which says
      nothing of how many outputs of the real generator it consumes.
    - A method that mutates [self] is a computation in a state-and-exception
      monad; an exception keeps the mutations performed before it was raised,
      as in Python.
    - Creatures of one battle are distinct objects ([main.py] creates each of
      them with its own [Creature(...)] call), so a reference to an enemy is
      its position in [self.enemies].
    - Sprites, fonts and sounds do not influence the state the properties
      speak about and are left out; of the rendering, [draw] is modelled by
      the items it asks to be put on the screen, in order, whether putting one
      on the screen raises being a parameter.
    - pygame holds coordinates as C [int]s. The comparison of integers that
      models [Rect.collidepoint] is the one pygame makes for coordinates that
      fit; a property that depends on how a click resolves assumes that they
      do ([View.click_fits]), the others are stated on the state an event
      leaves, whether it returned or raised. *)

From Stdlib Require Import ZArith String SpecFloat DecimalString Lia.
From stdpp Require Import base list strings.

Open Scope Z_scope.

(** ** Python effects: state and exceptions *)

Module Py.

Inductive Exn := ValueError | IndexError | OverflowError.

Inductive Res (S A : Type) :=
| Ok (a : A) (s : S)
| Raise (e : Exn) (s : S).
Arguments Ok {S A} a s.
Arguments Raise {S A} e s.

Definition M (S A : Type) := S -> Res S A.

Definition ret {S A} (a : A) : M S A := fun s => Ok a s.

Definition bind {S A B} (m : M S A) (k : A -> M S B) : M S B :=
  fun s => match m s with
           | Ok a s' => k a s'
           | Raise e s' => Raise e s'
           end.

Definition raise {S A} (e : Exn) : M S A := fun s => Raise e s.
Definition get {S} : M S S := fun s => Ok s s.
Definition modify {S} (f : S -> S) : M S unit := fun s => Ok tt (f s).

(** Runs a computation on a component of the state. *)
Definition zoom {S T A} (proj : S -> T) (inj : T -> S -> S) (m : M T A) : M S A :=
  fun s => match m (proj s) with
           | Ok a t => Ok a (inj t s)
           | Raise e t => Raise e (inj t s)
           end.

(** The state a computation leaves behind, whether it returned or raised. *)
Definition final {S A} (r : Res S A) : S :=
  match r with Ok _ s => s | Raise _ s => s end.

(** Weakest precondition: [Q] holds of the result and the state when the
    computation returns, [E] of the state when it raises. *)
Definition wp {S A} (m : M S A) (Q : A -> S -> Prop) (E : S -> Prop) (s : S) : Prop :=
  match m s with
  | Ok a s' => Q a s'
  | Raise _ s' => E s'
  end.

(** [str(n)] for an integer. *)
Definition str (n : Z) : string := NilZero.string_of_int (Z.to_int n).

End Py.

Declare Scope py_scope.
Delimit Scope py_scope with py.
Notation "x <- c ;; k" := (Py.bind c (fun x => k))
  (at level 100, c at next level, right associativity) : py_scope.
Notation "c ;; k" := (Py.bind c (fun _ => k))
  (at level 100, right associativity) : py_scope.
Open Scope py_scope.

(** ** binary64 arithmetic, as [Creature.roll_special_damage] uses it *)

Module Float64.

Definition prec : Z := 53.
Definition emax : Z := 1024.

Definition mul := SFmul prec emax.
Definition add := SFadd prec emax.
Definition div := SFdiv prec emax.

(** [float(n)]: the nearest binary64 value; [None] stands for the
    [OverflowError] Python raises when the integer is too large. *)
Definition of_int (n : Z) : option spec_float :=
  match binary_normalize prec emax n 0 false with
  | S754_infinity _ | S754_nan => None
  | f => Some f
  end.

(** [int(x)]: truncation toward zero; [None] stands for the error Python
    raises on an infinity or a NaN. *)
Definition to_int (x : spec_float) : option Z :=
  match x with
  | S754_zero _ => Some 0
  | S754_finite s m e =>
      Some (cond_Zopp s
              (match e with
               | Zneg p => Z.pos m / 2 ^ Z.pos p
               | _ => Z.pos m * 2 ^ e
               end))
  | S754_infinity _ | S754_nan => None
  end.

(** The literal [1.35]. *)
Definition lit_1_35 : spec_float := S754_finite false 6079859496950170 (-52).

(** The literal [6], converted to [float] by [+]. *)
Definition lit_6 : spec_float := S754_finite false 6755399441055744 (-50).

End Float64.

(** ** The random source *)

Module Random.

Record t := { tape : nat -> Z; cursor : nat }.

Definition M := Py.M t.

Definition next (g : t) : Z := tape g (cursor g).
Definition advance (g : t) : t := {| tape := tape g; cursor := S (cursor g) |}.

(** The next raw draw, reduced to [0 .. n-1]. *)
Definition randbelow (n : Z) : M Z :=
  fun g => Py.Ok (next g mod n) (advance g).

(** [random.randint(a, b)]: an integer in [a .. b]; [ValueError] when the
    range is empty. *)
Definition randint (a b : Z) : M Z :=
  if b <? a then Py.raise Py.ValueError
  else (k <- randbelow (b - a + 1) ;; Py.ret (a + k)).

(** [random.choice(seq)]: an element of [seq]; [IndexError] when [seq] is
    empty. *)
Definition choice {A} (seq : list A) : M A :=
  match seq with
  | [] => Py.raise Py.IndexError
  | x :: _ =>
      k <- randbelow (Z.of_nat (length seq)) ;;
      Py.ret (nth (Z.to_nat k) seq x)
  end.

End Random.

(** ** [creature.py]: class [Creature] *)

Module Creature.

Record t := {
  element : string;
  level : Z;
  max_health : Z;
  current_health : Z;
  damage_min : Z;
  damage_max : Z;
  max_special_uses : Z;
  special_uses : Z
}.

(** [Creature.__init__(element, level)] *)
Definition init (element : string) (level : Z) : t :=
  {| element := element; level := level;
     max_health := 1; current_health := 1;
     damage_min := 1; damage_max := 1;
     max_special_uses := 1; special_uses := 1 |}.

Definition configure_stats
    (base_hp hp_per_level base_dmg_min base_dmg_max dmg_per_level : Z) (c : t) : t :=
  let max_health' := base_hp + level c * hp_per_level in
  {| element := element c; level := level c;
     max_health := max_health';
     current_health := max_health';
     damage_min := base_dmg_min + level c * dmg_per_level;
     damage_max := base_dmg_max + level c * dmg_per_level;
     max_special_uses := max_special_uses c;
     special_uses := special_uses c |}.

Definition roll_damage (c : t) : Random.M Z :=
  Random.randint (damage_min c) (damage_max c).

(** [int(base * 1.35 + 6)] for a basic roll [base]. *)
Definition special_of_roll (base : Z) : option Z :=
  match Float64.of_int base with
  | None => None
  | Some b => Float64.to_int (Float64.add (Float64.mul b Float64.lit_1_35) Float64.lit_6)
  end.

Definition roll_special_damage (c : t) : Random.M Z :=
  base <- roll_damage c ;;
  match special_of_roll base with
  | Some d => Py.ret d
  | None => Py.raise Py.OverflowError
  end.

Definition take_damage (amount : Z) (c : t) : t :=
  {| element := element c; level := level c;
     max_health := max_health c;
     current_health := current_health c - amount;
     damage_min := damage_min c; damage_max := damage_max c;
     max_special_uses := max_special_uses c;
     special_uses := special_uses c |}.

Definition is_defeated (c : t) : bool := current_health c <=? 0.

Definition level_up (c : t) : t :=
  {| element := element c; level := level c + 1;
     max_health := max_health c;
     current_health := current_health c;
     damage_min := damage_min c; damage_max := damage_max c;
     max_special_uses := max_special_uses c;
     special_uses := special_uses c |}.

Definition reset_after_battle (c : t) : t :=
  {| element := element c; level := level c;
     max_health := max_health c;
     current_health := max_health c;
     damage_min := damage_min c; damage_max := damage_max c;
     max_special_uses := max_special_uses c;
     special_uses := max_special_uses c |}.

(** [self.special_uses -= 1], which [Battle] performs on the player. *)
Definition spend_special (c : t) : t :=
  {| element := element c; level := level c;
     max_health := max_health c;
     current_health := current_health c;
     damage_min := damage_min c; damage_max := damage_max c;
     max_special_uses := max_special_uses c;
     special_uses := special_uses c - 1 |}.

End Creature.


(** ** [battle.py]: class [Battle] *)

Module Battle.

(** *** pygame values the battle logic looks at *)

Inductive Key :=
| K_LEFT | K_a | K_RIGHT | K_d | K_RETURN | K_SPACE | K_s | K_x
| K_other (code : Z).

Inductive Event :=
| KEYDOWN (key : Key)
| MOUSEBUTTONDOWN (button : Z) (pos : Z * Z)
| OtherEvent.

Record Rect := { rect_x : Z; rect_y : Z; rect_w : Z; rect_h : Z }.

(** [Rect.collidepoint]: the right and bottom edges are outside. pygame
    keeps the coordinates of a rectangle and of the point as C [int]s, into
    which it converts Python integers; this comparison of integers is the
    one it makes when they all fit, which the properties about clicks
    require ([View.click_fits]). *)
Definition collidepoint (r : Rect) (p : Z * Z) : bool :=
  (rect_x r <=? p.1) && (p.1 <? rect_x r + rect_w r) &&
  (rect_y r <=? p.2) && (p.2 <? rect_y r + rect_h r).

(** [Button.is_clicked] *)
Definition is_clicked (rect : Rect) (event : Event) : bool :=
  match event with
  | MOUSEBUTTONDOWN button pos => (button =? 1) && collidepoint rect pos
  | _ => false
  end.

(** The integers [_compute_layout] and [_recompute_enemy_positions] derive
    from the screen size. They are fixed for the lifetime of a battle. *)
Record Layout := {
  screen_width : Z;
  sprite_size : Z * Z;
  left_pos : Z * Z;
  attack_rect : Rect;
  special_rect : Rect;
  pad : Z;        (* int(24 * scale) *)
  margin : Z;     (* int(120 * scale) *)
  row_y : Z       (* int(screen_height * 0.23) *)
}.

Definition Color : Type := Z * Z * Z.

(** The colour of the popup of a hit on an enemy, and of a counterattack. *)
Definition hit_color : Color := (255, 180, 120).
Definition counter_color : Color := (255, 120, 120).

(** An entry of [self.popups]. Its lifetime only matters to [update]. *)
Record Popup := { text : string; pos : Z * Z; color : Color }.

Inductive Outcome := WIN | LOSE.

(** *** The state of a battle *)

Record t := {
  player : Creature.t;
  enemies : list Creature.t;
  outcome : option Outcome;
  target_index : Z;
  message : string;
  popups : list Popup;
  layout : Layout;
  enemy_positions : list (Z * Z);
  random : Random.t
}.

Definition M := Py.M t.

Definition with_player (p : Creature.t) (s : t) : t :=
  {| player := p; enemies := enemies s; outcome := outcome s;
     target_index := target_index s; message := message s; popups := popups s;
     layout := layout s; enemy_positions := enemy_positions s; random := random s |}.

Definition with_enemies (es : list Creature.t) (s : t) : t :=
  {| player := player s; enemies := es; outcome := outcome s;
     target_index := target_index s; message := message s; popups := popups s;
     layout := layout s; enemy_positions := enemy_positions s; random := random s |}.

Definition with_outcome (o : option Outcome) (s : t) : t :=
  {| player := player s; enemies := enemies s; outcome := o;
     target_index := target_index s; message := message s; popups := popups s;
     layout := layout s; enemy_positions := enemy_positions s; random := random s |}.

Definition with_target_index (i : Z) (s : t) : t :=
  {| player := player s; enemies := enemies s; outcome := outcome s;
     target_index := i; message := message s; popups := popups s;
     layout := layout s; enemy_positions := enemy_positions s; random := random s |}.

Definition with_message (m : string) (s : t) : t :=
  {| player := player s; enemies := enemies s; outcome := outcome s;
     target_index := target_index s; message := m; popups := popups s;
     layout := layout s; enemy_positions := enemy_positions s; random := random s |}.

Definition with_popups (ps : list Popup) (s : t) : t :=
  {| player := player s; enemies := enemies s; outcome := outcome s;
     target_index := target_index s; message := message s; popups := ps;
     layout := layout s; enemy_positions := enemy_positions s; random := random s |}.

Definition with_enemy_positions (ps : list (Z * Z)) (s : t) : t :=
  {| player := player s; enemies := enemies s; outcome := outcome s;
     target_index := target_index s; message := message s; popups := popups s;
     layout := layout s; enemy_positions := ps; random := random s |}.

Definition with_random (g : Random.t) (s : t) : t :=
  {| player := player s; enemies := enemies s; outcome := outcome s;
     target_index := target_index s; message := message s; popups := popups s;
     layout := layout s; enemy_positions := enemy_positions s; random := g |}.

(** Draws from the shared generator. *)
Definition draw {A} (m : Random.M A) : M A := Py.zoom random with_random m.

(** *** Alive enemies *)

Definition alive (c : Creature.t) : bool := negb (Creature.is_defeated c).

Definition alive_of (es : list Creature.t) : list Creature.t := List.filter alive es.

(** The positions in [es], counted from [idx], of the enemies not defeated. *)
Fixpoint alive_from (idx : nat) (es : list Creature.t) : list nat :=
  match es with
  | [] => []
  | e :: es' =>
      if alive e then idx :: alive_from (S idx) es' else alive_from (S idx) es'
  end.

Definition _alive_enemies (s : t) : list Creature.t := alive_of (enemies s).
Definition _alive_indices (s : t) : list nat := alive_from 0 (enemies s).

(** *** Construction *)

Definition _build_intro_message (es : list Creature.t) : string :=
  match List.map Creature.element es with
  | [] => "An eerie silence fills the battlefield..."
  | [name] => "A wild " +:+ name +:+ " creature appears!"
  | names => Py.str (Z.of_nat (length names)) +:+ " enemies appear!"
  end.

Definition _recompute_enemy_positions (s : t) : t :=
  let lay := layout s in
  let count := Z.max 1 (Z.of_nat (length (_alive_enemies s))) in
  let total_w := count * (sprite_size lay).1 + (count - 1) * pad lay in
  let start_x := screen_width lay - margin lay - total_w in
  with_enemy_positions
    (List.map (fun i => (start_x + Z.of_nat i * ((sprite_size lay).1 + pad lay), row_y lay))
              (seq 0 (Z.to_nat count)))
    s.

(** The [enemy] argument of the constructor: one creature or a list. *)
Inductive EnemyArg := Single (c : Creature.t) | Several (cs : list Creature.t).

(** [Battle.__init__]: the attributes are assigned, then [_compute_layout]
    ends with [_recompute_enemy_positions]. No step of it raises, whatever
    the enemies are. *)
Definition __init__ (player : Creature.t) (enemy : EnemyArg) (lay : Layout)
    (g : Random.t) : Py.Res t unit :=
  let enemies := match enemy with Several cs => cs | Single c => [c] end in
  Py.modify _recompute_enemy_positions
    {| player := player; enemies := enemies; outcome := None; target_index := 0;
       message := _build_intro_message enemies; popups := [];
       layout := lay; enemy_positions := []; random := g |}.

(** The battle [Battle(player, enemy, ...)] evaluates to. *)
Definition init (player : Creature.t) (enemy : EnemyArg) (lay : Layout)
    (g : Random.t) : t :=
  Py.final (__init__ player enemy lay g).

(** *** Targeting *)

Definition clamp_index (i : Z) (n : nat) : Z := Z.max 0 (Z.min i (Z.of_nat n - 1)).

(** Returns the reference of the target and its index among the alive. *)
Definition _get_target : M (option (nat * Z)) :=
  s <- Py.get ;;
  match _alive_indices s with
  | [] => Py.ret None
  | r :: _ =>
      let i := clamp_index (target_index s) (length (_alive_enemies s)) in
      Py.modify (with_target_index i) ;;
      Py.ret (Some (nth (Z.to_nat i) (_alive_indices s) r, i))
  end.

Fixpoint first_hit (lay : Layout) (mouse_pos : Z * Z) (idx : Z)
    (pairs : list (Creature.t * (Z * Z))) : option Z :=
  match pairs with
  | [] => None
  | (_, p) :: rest =>
      if collidepoint {| rect_x := p.1; rect_y := p.2;
                         rect_w := (sprite_size lay).1; rect_h := (sprite_size lay).2 |}
                      mouse_pos
      then Some idx
      else first_hit lay mouse_pos (idx + 1) rest
  end.

Definition _enemy_at_pos (s : t) (mouse_pos : Z * Z) : option Z :=
  first_hit (layout s) mouse_pos 0 (zip (_alive_enemies s) (enemy_positions s)).

(** *** Attacks *)

Definition _add_popup (text : string) (pos : Z * Z) (color : Color) : M unit :=
  Py.modify (fun s => with_popups (popups s ++ [{| text := text; pos := pos; color := color |}]) s).

(** [self.enemy_positions[idx]] *)
Definition position_at (idx : nat) : M (Z * Z) :=
  s <- Py.get ;;
  match enemy_positions s !! idx with
  | Some p => Py.ret p
  | None => Py.raise Py.IndexError
  end.

(** [enemy.take_damage(amount)] for the enemy with reference [ref]. *)
Definition enemy_take_damage (ref : nat) (amount : Z) : M unit :=
  Py.modify (fun s => with_enemies (alter (Creature.take_damage amount) ref (enemies s)) s).

Definition enemy_is_defeated (ref : nat) (s : t) : bool :=
  match enemies s !! ref with
  | Some e => Creature.is_defeated e
  | None => false
  end.

Definition spend_special : M unit :=
  Py.modify (fun s => with_player (Creature.spend_special (player s)) s).

Definition player_roll_damage : M Z :=
  s <- Py.get ;; draw (Creature.roll_damage (player s)).

Definition player_roll_special_damage : M Z :=
  s <- Py.get ;; draw (Creature.roll_special_damage (player s)).

Definition hit_popup (damage : Z) (popup_pos : Z * Z) : M unit :=
  _add_popup ("-" +:+ Py.str damage) (popup_pos.1 + 60, popup_pos.2 - 10) hit_color.

Definition win (msg : string) : M unit :=
  Py.modify (fun s => with_message msg (with_outcome (Some WIN) s)).

(** The body of the loop of the area attack, from position [idx] of the
    snapshot on. *)
Fixpoint special_all (idx : nat) (snapshot : list nat) (total_damage : Z) : M Z :=
  match snapshot with
  | [] => Py.ret total_damage
  | enemy :: rest =>
      damage <- player_roll_special_damage ;;
      enemy_take_damage enemy damage ;;
      popup_pos <- position_at idx ;;
      hit_popup damage popup_pos ;;
      special_all (S idx) rest (total_damage + damage)
  end.

(** [_recompute_enemy_positions] followed by the clamping of
    [target_index], after a death that leaves enemies alive. *)
Definition retargeted (s : t) : t :=
  let s' := _recompute_enemy_positions s in
  with_target_index (clamp_index (target_index s') (length (_alive_enemies s'))) s'.

Definition retarget : M unit := Py.modify retargeted.

(** The counterattack, which the source writes out in both branches;
    [summary] builds the message from the damage of the counterattack. *)
Definition counterattack (summary : Z -> string) : M unit :=
  s <- Py.get ;;
  counter <- draw (Random.choice (_alive_enemies s)) ;;
  enemy_damage <- draw (Creature.roll_damage counter) ;;
  Py.modify (fun s => with_player (Creature.take_damage enemy_damage (player s)) s) ;;
  _add_popup ("-" +:+ Py.str enemy_damage)
             ((left_pos (layout s)).1 + 60, (left_pos (layout s)).2 - 10) counter_color ;;
  Py.modify (with_message (summary enemy_damage)) ;;
  s' <- Py.get ;;
  if Creature.is_defeated (player s')
  then Py.modify (fun s => with_message "You have been defeated!" (with_outcome (Some LOSE) s))
  else Py.ret tt.

Definition special_summary (total_damage enemy_damage : Z) : string :=
  "Special hit all enemies for " +:+ Py.str total_damage +:+
  " total. Enemy hit back for " +:+ Py.str enemy_damage +:+ ".".

Definition attack_summary (damage enemy_damage : Z) : string :=
  "You dealt " +:+ Py.str damage +:+ ". Enemy hit back for " +:+ Py.str enemy_damage +:+ ".".

Definition _player_attack (use_special : bool) : M unit :=
  s <- Py.get ;;
  if use_special && (Creature.special_uses (player s) <=? 0) then Py.ret tt
  else
    match _alive_indices s with
    | [] => win "Enemy defeated!"
    | _ =>
        if use_special && (1 <? Z.of_nat (length (_alive_enemies s))) then
          spend_special ;;
          total_damage <- special_all 0 (_alive_indices s) 0 ;;
          s1 <- Py.get ;;
          match _alive_enemies s1 with
          | [] => win "Enemies defeated!"
          | _ => retarget ;; counterattack (special_summary total_damage)
          end
        else
          tgt <- _get_target ;;
          match tgt with
          | None => win "Enemy defeated!"
          | Some (target, target_index) =>
              damage <- (if use_special
                         then (d <- player_roll_special_damage ;; spend_special ;; Py.ret d)
                         else player_roll_damage) ;;
              enemy_take_damage target damage ;;
              popup_pos <- position_at (Z.to_nat target_index) ;;
              hit_popup damage popup_pos ;;
              s2 <- Py.get ;;
              if enemy_is_defeated target s2 then
                match _alive_enemies s2 with
                | [] => win "Enemy defeated!"
                | _ => retarget ;; counterattack (attack_summary damage)
                end
              else counterattack (attack_summary damage)
          end
    end.

(** *** Events *)

Definition cycle_target (step : Z) : M unit :=
  Py.modify (fun s =>
    match _alive_enemies s with
    | [] => s
    | alive => with_target_index ((target_index s + step) mod Z.of_nat (length alive)) s
    end).

Definition special_requested : M unit :=
  s <- Py.get ;;
  if 0 <? Creature.special_uses (player s) then _player_attack true
  else Py.modify (with_message "No special uses left!").

Definition buttons (event : Event) : M unit :=
  s <- Py.get ;;
  if is_clicked (attack_rect (layout s)) event then _player_attack false
  else if is_clicked (special_rect (layout s)) event then special_requested
  else Py.ret tt.

Definition handle_event (event : Event) : M unit :=
  s <- Py.get ;;
  match outcome s with
  | Some _ => Py.ret tt
  | None =>
      match event with
      | KEYDOWN (K_LEFT | K_a) => cycle_target (-1)
      | KEYDOWN (K_RIGHT | K_d) => cycle_target 1
      | KEYDOWN (K_RETURN | K_SPACE) => _player_attack false
      | KEYDOWN (K_s | K_x) => special_requested
      | KEYDOWN (K_other _) => Py.ret tt
      | MOUSEBUTTONDOWN button pos =>
          if button =? 1 then
            match _enemy_at_pos s pos with
            | Some clicked => Py.modify (with_target_index clicked)
            | None => buttons event
            end
          else buttons event
      | OtherEvent => Py.ret tt
      end
  end.

(** *** Notions the properties are stated with *)

Definition rolls_ok (c : Creature.t) : Prop :=
  Creature.damage_min c <= Creature.damage_max c.

(** Every special roll of [c] is an integer ([int] does not raise). *)
Definition special_ok (c : Creature.t) : Prop :=
  forall base, Creature.damage_min c <= base <= Creature.damage_max c ->
               is_Some (Creature.special_of_roll base).

(** A battle in which no roll raises: damage ranges are not empty, and
    there is a position for every alive enemy. [init] establishes it and
    [handle_event] keeps it. *)
Record wf (s : t) : Prop := {
  wf_player : rolls_ok (player s);
  wf_special : special_ok (player s);
  wf_enemies : Forall rolls_ok (enemies s);
  wf_positions : (length (_alive_enemies s) <= length (enemy_positions s))%nat
}.

(** [target_index] designates an alive enemy, when there is one. *)
Definition target_ok (s : t) : Prop :=
  _alive_enemies s <> [] ->
  0 <= target_index s < Z.of_nat (length (_alive_enemies s)).

(** The player intents [handle_event] recognises in an event. *)
Inductive Intent :=
| CycleTarget (step : Z)
| SelectTargetAt (index : Z)
| BasicAttack
| SpecialAttack
| NoIntent.

Definition button_intent (s : t) (event : Event) : Intent :=
  if is_clicked (attack_rect (layout s)) event then BasicAttack
  else if is_clicked (special_rect (layout s)) event then SpecialAttack
  else NoIntent.

Definition intent_of (s : t) (event : Event) : Intent :=
  match event with
  | KEYDOWN (K_LEFT | K_a) => CycleTarget (-1)
  | KEYDOWN (K_RIGHT | K_d) => CycleTarget 1
  | KEYDOWN (K_RETURN | K_SPACE) => BasicAttack
  | KEYDOWN (K_s | K_x) => SpecialAttack
  | KEYDOWN (K_other _) => NoIntent
  | MOUSEBUTTONDOWN button pos =>
      if button =? 1 then
        match _enemy_at_pos s pos with
        | Some clicked => SelectTargetAt clicked
        | None => button_intent s event
        end
      else button_intent s event
  | OtherEvent => NoIntent
  end.

Definition perform (i : Intent) : M unit :=
  match i with
  | CycleTarget step => cycle_target step
  | SelectTargetAt index => Py.modify (with_target_index index)
  | BasicAttack => _player_attack false
  | SpecialAttack => special_requested
  | NoIntent => Py.ret tt
  end.


(** The special damage of a roll whose conversion does not raise. *)
Definition special_damage (base : Z) : Z := default 0 (Creature.special_of_roll base).

(** The [k]-th roll of [c] from generator [g] on. *)
Definition roll_at (c : Creature.t) (g : Random.t) (k : nat) : Z :=
  Creature.damage_min c +
  Random.tape g (Random.cursor g + k) mod (Creature.damage_max c - Creature.damage_min c + 1).

Fixpoint advance_by (n : nat) (g : Random.t) : Random.t :=
  match n with
  | O => g
  | S n' => advance_by n' (Random.advance g)
  end.

Definition hit_popup_of (damage : Z) (popup_pos : Z * Z) : Popup :=
  {| text := "-" +:+ Py.str damage;
     pos := (popup_pos.1 + 60, popup_pos.2 - 10);
     color := hit_color |}.

Definition counter_popup_of (lay : Layout) (enemy_damage : Z) : Popup :=
  {| text := "-" +:+ Py.str enemy_damage;
     pos := ((left_pos lay).1 + 60, (left_pos lay).2 - 10);
     color := counter_color |}.

(** The first [n] rolls of [c] from generator [g] on: one draw each. *)
Fixpoint rolls_from (c : Creature.t) (g : Random.t) (n : nat) : list Z :=
  match n with
  | O => []
  | S n' => roll_at c g 0 :: rolls_from c (Random.advance g) n'
  end.

Definition total_of (damages : list Z) : Z := foldr Z.add 0 damages.

(** The enemies after the damages [ds] were dealt, in order, to those of
    [es] that were alive beforehand. *)
Fixpoint hit_alive (ds : list Z) (es : list Creature.t) : list Creature.t :=
  match es with
  | [] => []
  | e :: es' =>
      if alive e then
        match ds with
        | d :: ds' => Creature.take_damage d e :: hit_alive ds' es'
        | [] => e :: es'
        end
      else e :: hit_alive ds es'
  end.

(** [s2] is [s1] after a counterattack whose message, when the player
    survives, is [summary] of the damage. *)
Definition counterattacked (summary : Z -> string) (s1 s2 : t) : Prop :=
  exists counter enemy_damage,
    counter ∈ _alive_enemies s1 /\
    Creature.damage_min counter <= enemy_damage <= Creature.damage_max counter /\
    player s2 = Creature.take_damage enemy_damage (player s1) /\
    enemies s2 = enemies s1 /\
    target_index s2 = target_index s1 /\
    layout s2 = layout s1 /\
    enemy_positions s2 = enemy_positions s1 /\
    popups s2 = popups s1 ++ [counter_popup_of (layout s1) enemy_damage] /\
    outcome s2 = (if Creature.is_defeated (player s2) then Some LOSE else outcome s1) /\
    message s2 = (if Creature.is_defeated (player s2) then "You have been defeated!"
                  else summary enemy_damage).

(** [s'] is the battle after the exchange that follows the strike of the
    player: [s1] is the battle right after the strike, [s2] the battle the
    counterattack starts from when an enemy is left. *)
Definition resolved (win_message : string) (summary : Z -> string) (s1 s2 s' : t) : Prop :=
  match _alive_enemies s1 with
  | [] => s' = with_message win_message (with_outcome (Some WIN) s1)
  | _ => counterattacked summary s2 s'
  end.

(** The battle right after a special attack on all the alive enemies. *)
Definition struck_all (s : t) : t :=
  let n := length (_alive_enemies s) in
  let ds := List.map special_damage (rolls_from (player s) (random s) n) in
  with_popups (popups s ++ zip_with hit_popup_of ds (enemy_positions s))
    (with_enemies (hit_alive ds (enemies s))
       (with_random (advance_by n (random s))
          (with_player (Creature.spend_special (player s)) s))).

(** The damage of the strike on one target. *)
Definition strike_damage (use_special : bool) (s : t) : Z :=
  if use_special then special_damage (roll_at (player s) (random s) 0)
  else roll_at (player s) (random s) 0.

(** The battle right after a strike on the enemy with reference [ref],
    which is at [index] among the alive. *)
Definition struck_one (use_special : bool) (ref : nat) (index : Z) (s : t) : t :=
  let d := strike_damage use_special s in
  with_popups
    (popups s ++ [hit_popup_of d (nth (Z.to_nat index) (enemy_positions s) (0, 0))])
    (with_enemies (alter (Creature.take_damage d) ref (enemies s))
       (with_player (if use_special then Creature.spend_special (player s) else player s)
          (with_random (Random.advance (random s))
             (with_target_index index s)))).

(** Whether an attack consumes a special use: a special attack does when
    there is an enemy to strike. *)
Definition spends (use_special : bool) (s : t) : bool :=
  use_special && match _alive_enemies s with [] => false | _ => true end.

(** [s1] is [s] after the strike of the player, [hits] being the popups the
    strike created. *)
Definition struck (use_special : bool) (hits : list Popup) (s s1 : t) : Prop :=
  player s1 = (if spends use_special s then Creature.spend_special (player s) else player s) /\
  popups s1 = popups s ++ hits /\
  Forall (fun p => color p = hit_color) hits /\
  Forall rolls_ok (enemies s1) /\
  outcome s1 = outcome s /\
  layout s1 = layout s.

(** [s2] is [s1] made ready for the counterattack: only the positions and
    the target may differ, and the target is an alive enemy. *)
Definition prepared (s1 s2 : t) : Prop :=
  player s2 = player s1 /\
  enemies s2 = enemies s1 /\
  outcome s2 = outcome s1 /\
  popups s2 = popups s1 /\
  layout s2 = layout s1 /\
  (_alive_enemies s1 <> [] ->
   target_ok s2 /\ (length (_alive_enemies s2) <= length (enemy_positions s2))%nat).

Definition uses (s : t) : Z := Creature.special_uses (player s).

(** An intent that [handle_event] acts upon. *)
Definition acts (s : t) (i : Intent) : Prop :=
  match i with
  | CycleTarget _ | SelectTargetAt _ | BasicAttack => True
  | SpecialAttack => 0 < uses s
  | NoIntent => False
  end.

(** What an attack let through to [_player_attack] leaves behind: [hits]
    are the popups of the strike. *)
Definition attacked (use_special : bool) (hits : list Popup) (s s' : t) : Prop :=
  Forall (fun p => color p = hit_color) hits /\
  uses s' = uses s - (if spends use_special s then 1 else 0) /\
  match _alive_enemies s' with
  | [] =>
      outcome s' = Some WIN /\
      Creature.current_health (player s') = Creature.current_health (player s) /\
      popups s' = popups s ++ hits
  | _ =>
      exists counter enemy_damage,
        counter ∈ _alive_enemies s' /\
        Creature.damage_min counter <= enemy_damage <= Creature.damage_max counter /\
        Creature.current_health (player s') =
          Creature.current_health (player s) - enemy_damage /\
        popups s' = popups s ++ hits ++ [counter_popup_of (layout s) enemy_damage] /\
        outcome s' = (if Creature.current_health (player s') <=? 0 then Some LOSE else outcome s)
  end.



(** The battle after a sequence of events, each handled in turn. *)
Definition run (events : list Event) (s : t) : t :=
  foldl (fun s event => Py.final (handle_event event s)) s events.

End Battle.

(** ** Concrete battles *)

Module Scenario.
Import Battle.

Definition fighter (health dmg_min dmg_max special : Z) : Creature.t :=
  {| Creature.element := "enemy"; Creature.level := 1;
     Creature.max_health := health; Creature.current_health := health;
     Creature.damage_min := dmg_min; Creature.damage_max := dmg_max;
     Creature.max_special_uses := 1; Creature.special_uses := special |}.

(** The player: every roll is 10, every special roll 19. *)
Definition hero : Creature.t := fighter 100 10 10 1.

(** The same player with no special use left. *)
Definition tired_hero : Creature.t := fighter 100 10 10 0.

(** The layout of a 1024 x 768 screen. *)
Definition screen : Layout :=
  {| screen_width := 1024; sprite_size := (180, 180); left_pos := (120, 176);
     attack_rect := {| rect_x := 248; rect_y := 614; rect_w := 220; rect_h := 56 |};
     special_rect := {| rect_x := 555; rect_y := 614; rect_w := 220; rect_h := 56 |};
     pad := 24; margin := 120; row_y := 176 |}.

Definition dice : Random.t := {| Random.tape := Z.of_nat; Random.cursor := 0 |}.

(** One enemy that a basic attack defeats. *)
Definition duel : t := init hero (Single (fighter 10 3 5 1)) screen dice.

(** Three enemies that a special attack defeats. *)
Definition melee : t :=
  init hero (Several [fighter 5 3 5 1; fighter 5 3 5 1; fighter 5 3 5 1]) screen dice.

(** Three enemies, one of which survives a special attack. *)
Definition brawl : t :=
  init hero (Several [fighter 5 3 5 1; fighter 50 3 5 1; fighter 5 3 5 1]) screen dice.

(** Two enemies against a player with no special use left. *)
Definition weary : t :=
  init tired_hero (Several [fighter 50 3 5 1; fighter 50 3 5 1]) screen dice.

(** A creature configured with a negative damage: every roll is -5. *)
Definition imp : Creature.t :=
  Creature.configure_stats 10 0 (-5) (-5) 0 (Creature.init "imp" 1).

(** A battle that is won. *)
Definition won : t := run [KEYDOWN K_RETURN] duel.

End Scenario.

(** ** Further notions *)

Module View.
Import Battle.

(** The rectangle [_enemy_at_pos] tests for the sprite at position [p]. *)
Definition sprite_rect (lay : Layout) (p : Z * Z) : Rect :=
  {| rect_x := p.1; rect_y := p.2;
     rect_w := (sprite_size lay).1; rect_h := (sprite_size lay).2 |}.

(** A Python integer that pygame converts to a C [int] as it is: outside
    this range the conversion wraps it or refuses it with a [TypeError]. *)
Definition c_int (x : Z) : bool := (- 2 ^ 31 <=? x) && (x <? 2 ^ 31).

(** A rectangle pygame holds as it is, whose right and bottom edges it
    computes without overflow. *)
Definition rect_fits (r : Rect) : bool :=
  c_int (rect_x r) && c_int (rect_y r) && c_int (rect_w r) && c_int (rect_h r) &&
  c_int (rect_x r + rect_w r) && c_int (rect_y r + rect_h r).

(** The point and every rectangle [handle_event] may test it against fit:
    the two buttons and the sprite at each position. *)
Definition point_fits (s : t) (mouse_pos : Z * Z) : bool :=
  c_int mouse_pos.1 && c_int mouse_pos.2 &&
  rect_fits (attack_rect (layout s)) && rect_fits (special_rect (layout s)) &&
  forallb (fun p => rect_fits (sprite_rect (layout s) p)) (enemy_positions s).

(** An event whose position, if the battle looks at it, fits: only an
    undecided battle looks at a position, and only at that of a press of
    the left button. *)
Definition click_fits (s : t) (event : Event) : bool :=
  match outcome s, event with
  | None, MOUSEBUTTONDOWN button mouse_pos =>
      if button =? 1 then point_fits s mouse_pos else true
  | _, _ => true
  end.

(** Every event of the sequence fits the battle it reaches. *)
Fixpoint clicks_fit (events : list Event) (s : t) : bool :=
  match events with
  | [] => true
  | event :: rest =>
      click_fits s event && clicks_fit rest (Py.final (handle_event event s))
  end.


(** [e'] is [e] up to its current health. *)
Definition same_but_health (e e' : Creature.t) : Prop :=
  exists d, e' = Creature.take_damage d e.

(** Enemy by enemy: one that was defeated is the same afterwards, any other
    differs at most by its health. *)
Definition enemy_kept (e e' : Creature.t) : Prop :=
  same_but_health e e' /\ (Creature.is_defeated e = true -> e' = e).

(** A creature whose damage range is empty: no roll is possible. *)
Definition clumsy : Creature.t := Scenario.fighter 100 5 3 1.

(** The clumsy creature as the player, against one enemy and against two. *)
Definition fumble : t :=
  init clumsy (Single (Scenario.fighter 10 3 5 1)) Scenario.screen Scenario.dice.

Definition scrum : t :=
  init clumsy (Several [Scenario.fighter 10 3 5 1; Scenario.fighter 10 3 5 1])
       Scenario.screen Scenario.dice.

(** The calls [self.battle.handle_event(event)] that the loop of
    [Game._handle_events] makes while the game is in a battle, one for each
    event that reaches the battle, in order. *)
Fixpoint handle_events (events : list Event) : M unit :=
  match events with
  | [] => Py.ret tt
  | event :: rest => handle_event event ;; handle_events rest
  end.

(** [c'] is [c] up to its current health and its special uses. *)
Definition same_stats (c c' : Creature.t) : Prop :=
  Creature.element c' = Creature.element c /\
  Creature.level c' = Creature.level c /\
  Creature.max_health c' = Creature.max_health c /\
  Creature.damage_min c' = Creature.damage_min c /\
  Creature.damage_max c' = Creature.damage_max c /\
  Creature.max_special_uses c' = Creature.max_special_uses c.

(** The positions are those [_recompute_enemy_positions] would compute. *)
Definition in_sync (s : t) : Prop :=
  enemy_positions (_recompute_enemy_positions s) = enemy_positions s.

End View.

(** ** [battle.py]: what [Battle.draw] shows *)

Module Screen.
Import Battle.

(** What [Battle.draw] asks to be put on the screen: a call of
    [_draw_creature], the rectangle around the target, a button, the
    message, the controls, a popup. The sprite of an enemy is
    [self.enemy_sprites[enemy_index]]; that list has an entry for each enemy
    of [self.enemies] from the constructor on, so the entry is given by its
    index. *)
Inductive Sprite := PlayerSprite | EnemySprite (enemy_index : nat).

Inductive Drawn :=
| DrawnCreature (creature : Creature.t) (sprite : Sprite) (pos : Z * Z) (label : string)
| DrawnHighlight (rect : Rect)
| DrawnButton (label : string) (hovered disabled : bool)
| DrawnMessage (text : string)
| DrawnControls
| DrawnPopup (popup : Popup).

(** How a call of [draw] ends: it returns, a subscript of its own is out of
    range, putting an item on the screen raises (a pygame call that refuses
    its arguments, the division of [_draw_health_bar], ...), or asking
    pygame for the position of the mouse raises. *)
Inductive End := Returned | RaisedIndexError | RaisedBy (item : Drawn) | RaisedByMouse.

(** The rectangle [draw] highlights the target with. *)
Definition highlight_rect (lay : Layout) (pos : Z * Z) : Rect :=
  {| rect_x := pos.1 - 4; rect_y := pos.2 - 4;
     rect_w := (sprite_size lay).1 + 8; rect_h := (sprite_size lay).2 + 8 |}.

(** The first part of [draw], then the next one if the first returned: the
    items shown and how it ended. *)
Definition and_then (first next : list Drawn * End) : list Drawn * End :=
  match first with
  | (shown, Returned) => (shown ++ next.1, next.2)
  | _ => first
  end.

Section Draw.

(** Whether putting an item on the screen returns; which calls do is not
    known to the battle. *)
Variable shows : Drawn -> bool.

(** Puts the items on the screen in order, until one raises. *)
Fixpoint show (items : list Drawn) : list Drawn * End :=
  match items with
  | [] => ([], Returned)
  | item :: rest =>
      if shows item then and_then ([item], Returned) (show rest)
      else ([], RaisedBy item)
  end.

(** The loop of [draw] over [enumerate(alive_indices)], from [idx] on; [draw]
    reads the battle and assigns nothing. *)
Fixpoint draw_enemies (s : t) (idx : nat) (alive_indices : list nat) : list Drawn * End :=
  match alive_indices with
  | [] => ([], Returned)
  | enemy_index :: rest =>
      match _alive_enemies s !! idx, enemies s !! enemy_index, enemy_positions s !! idx with
      | Some enemy, Some _, Some pos =>
          let label := if (1 <? Z.of_nat (length (_alive_enemies s)))
                       then "ENEMY " +:+ Py.str (Z.of_nat idx + 1) else "ENEMY" in
          let highlight :=
            if Z.of_nat idx =? target_index s
            then [DrawnHighlight (highlight_rect (layout s) pos)]
            else [] in
          and_then (show (DrawnCreature enemy (EnemySprite enemy_index) pos label :: highlight))
                   (draw_enemies s (S idx) rest)
      | _, _, _ => ([], RaisedIndexError)
      end
  end.

(** [Battle.draw]; [mouse] is what [pygame.mouse.get_pos()] returns, [None]
    when it raises. *)
Definition draw (mouse : option (Z * Z)) (s : t) : list Drawn * End :=
  and_then (show [DrawnCreature (player s) PlayerSprite (left_pos (layout s)) "PLAYER"])
    (and_then (draw_enemies s 0 (_alive_indices s))
       match mouse with
       | None => ([], RaisedByMouse)
       | Some mouse_pos =>
           show ([DrawnButton "ATTACK" (collidepoint (attack_rect (layout s)) mouse_pos) false;
                  DrawnButton "SPECIAL" (collidepoint (special_rect (layout s)) mouse_pos)
                              (Creature.special_uses (player s) <=? 0);
                  DrawnMessage (message s);
                  DrawnControls]
                 ++ List.map DrawnPopup (popups s))
       end).

End Draw.

(** The creatures among what was drawn, with their positions, and the
    highlights. *)
Definition creatures_drawn (drawn : list Drawn) : list (Creature.t * (Z * Z)) :=
  omap (fun d => match d with DrawnCreature c _ p _ => Some (c, p) | _ => None end) drawn.

Definition highlights (drawn : list Drawn) : list Rect :=
  omap (fun d => match d with DrawnHighlight r => Some r | _ => None end) drawn.

End Screen.

(** ** [main.py]: how [Game] sets a battle up and levels the player

    The parts of [Game] that act on the creatures and create the battle;
    music, story, map and the state variable are left out. *)

Module Main.
Import Battle.

Record Stats := {
  base_hp : Z; hp_per_level : Z; base_dmg_min : Z; base_dmg_max : Z; dmg_per_level : Z
}.

Definition PLAYER_STATS : Stats :=
  {| base_hp := 100; hp_per_level := 25; base_dmg_min := 12; base_dmg_max := 18;
     dmg_per_level := 2 |}.

Definition ENEMY_STATS : Stats :=
  {| base_hp := 90; hp_per_level := 22; base_dmg_min := 10; base_dmg_max := 16;
     dmg_per_level := 2 |}.

(** The literals [1.25], [1.15] and [0.10]. *)
Definition BOSS_HP_MULT : spec_float := S754_finite false 5629499534213120 (-52).
Definition BOSS_DMG_MULT : spec_float := S754_finite false 5179139571476070 (-52).
Definition BOSS_CHANCE : spec_float := S754_finite false 7205759403792794 (-56).

(** [creature.configure_stats] with the entries of [stats] as its keyword
    arguments. *)
Definition configure (stats : Stats) (c : Creature.t) : Creature.t :=
  Creature.configure_stats (base_hp stats) (hp_per_level stats) (base_dmg_min stats)
                           (base_dmg_max stats) (dmg_per_level stats) c.

(** [Game._create_creature], the sprite apart. *)
Definition _create_creature (element : string) : Creature.t := Creature.init element 1.

(** [Game._configure_for_battle]: the creatures are configured in place,
    so the shape of [enemy] is the one it had. *)
Definition _configure_for_battle (player : Creature.t) (enemy : EnemyArg)
    : Creature.t * EnemyArg :=
  let player' := Creature.reset_after_battle (configure PLAYER_STATS player) in
  let foe' := fun foe => Creature.reset_after_battle (configure ENEMY_STATS foe) in
  (player', match enemy with
            | Several cs => Several (List.map foe' cs)
            | Single c => Single (foe' c)
            end).

(** [random.random()]: 53 bits of the generator, as a float in [0, 1). *)
Definition random_random : Random.M spec_float :=
  k <- Random.randbelow (2 ^ 53) ;;
  Py.ret (binary_normalize Float64.prec Float64.emax k (-53) false).

(** [int(x * mult)] for an integer [x] and a float [mult]. *)
Definition scaled (x : Z) (mult : spec_float) : Random.M Z :=
  match Float64.of_int x with
  | None => Py.raise Py.OverflowError
  | Some b =>
      match Float64.to_int (Float64.mul b mult) with
      | Some r => Py.ret r
      | None => Py.raise Py.OverflowError
      end
  end.

(** The four assignments that make a boss of the configured enemy. An
    exception leaves the game without a battle; the half-scaled enemy it
    would leave behind is not modelled. *)
Definition boss_scaled (enemy : Creature.t) : Random.M Creature.t :=
  max_health' <- scaled (Creature.max_health enemy) BOSS_HP_MULT ;;
  damage_min' <- scaled (Creature.damage_min enemy) BOSS_DMG_MULT ;;
  damage_max' <- scaled (Creature.damage_max enemy) BOSS_DMG_MULT ;;
  Py.ret {| Creature.element := Creature.element enemy;
            Creature.level := Creature.level enemy;
            Creature.max_health := max_health';
            Creature.current_health := max_health';
            Creature.damage_min := damage_min';
            Creature.damage_max := damage_max';
            Creature.max_special_uses := Creature.max_special_uses enemy;
            Creature.special_uses := Creature.special_uses enemy |}.

(** The loop that creates the enemies of an ordinary battle; each of them
    draws its sprite. *)
Fixpoint spawn_enemies (count : nat) (level : Z) (sprites : list string)
    : Random.M (list Creature.t) :=
  match count with
  | O => Py.ret []
  | S count' =>
      _ <- Random.choice sprites ;;
      rest <- spawn_enemies count' level sprites ;;
      Py.ret (Creature.init "enemy" level :: rest)
  end.

(** [Game._start_battle]: the battle and [last_battle_was_boss]. The two
    tests of [is_boss] of the source are one here, with the call of
    [_configure_for_battle] in both branches; that call configures the boss
    in place, so the second case of the [match] does not occur. The battle
    goes on with the generator as the set-up leaves it. *)
Definition _start_battle (player : Creature.t) (boss_sprites enemy_sprites : list string)
    (lay : Layout) : Random.M (Battle.t * bool) :=
  x <- random_random ;;
  if SFltb x BOSS_CHANCE then
    _ <- Random.choice boss_sprites ;;
    let boss := Creature.init "boss" (Creature.level player) in
    match _configure_for_battle player (Single boss) with
    | (player', Single boss') =>
        boss'' <- boss_scaled boss' ;;
        g <- Py.get ;;
        Py.ret (init player' (Single boss'') lay g, true)
    | (player', enemies) =>
        g <- Py.get ;;
        Py.ret (init player' enemies lay g, true)
    end
  else
    enemy_count <- Random.randint 1 3 ;;
    enemies <- spawn_enemies (Z.to_nat enemy_count) (Creature.level player) enemy_sprites ;;
    let (player', enemies') := _configure_for_battle player (Several enemies) in
    g <- Py.get ;;
    Py.ret (init player' enemies' lay g, false).

(** What [Game._update] does to the player when the battle is won. *)
Definition level_up_after_win (player : Creature.t) : Creature.t :=
  Creature.reset_after_battle (configure PLAYER_STATS (Creature.level_up player)).

End Main.

(** * Proofs *)

Module Float64Facts.

(** *** Digits *)

Lemma digits2_size m : digits2_pos m = Pos.size m.
Proof. induction m; cbn; congruence. Qed.

Lemma digits_bounds m :
  2 ^ (Z.pos (digits2_pos m) - 1) <= Z.pos m < 2 ^ Z.pos (digits2_pos m).
Proof.
  rewrite digits2_size. split.
  - pose proof (Pos.size_le m) as H.
    assert (H' : 2 ^ Z.pos (Pos.size m) <= 2 * Z.pos m).
    { change (2 * Z.pos m) with (Z.pos m~0). rewrite <- Pos2Z.inj_pow. apply Pos2Z.pos_le_pos, H. }
    replace (Z.pos (Pos.size m)) with (1 + (Z.pos (Pos.size m) - 1)) in H' by lia.
    rewrite Z.pow_add_r in H' by lia. change (2 ^ 1) with 2 in H'. lia.
  - pose proof (Pos.size_gt m) as H.
    rewrite <- Pos2Z.inj_pow. apply Pos2Z.pos_lt_pos, H.
Qed.

Lemma digits_unique m k :
  2 ^ (k - 1) <= Z.pos m < 2 ^ k -> Z.pos (digits2_pos m) = k.
Proof.
  intros [Hlo Hhi]. pose proof (digits_bounds m) as [Hlo' Hhi'].
  set (d := Z.pos (digits2_pos m)) in *.
  assert (0 < d) by (subst d; lia).
  destruct (Z.lt_trichotomy d k) as [Hlt | [Heq | Hgt]]; [| assumption |].
  - assert (2 ^ d <= 2 ^ (k - 1)) by (apply Z.pow_le_mono_r; lia). lia.
  - assert (0 <= k \/ k < 0) as [Hk | Hk] by lia.
    + assert (2 ^ k <= 2 ^ (d - 1)) by (apply Z.pow_le_mono_r; lia). lia.
    + rewrite (Z.pow_neg_r 2 k) in Hhi by lia. lia.
Qed.

Lemma shr_1_m mrs : 0 <= shr_m mrs -> shr_m (shr_1 mrs) = shr_m mrs / 2.
Proof.
  destruct mrs as [m r s]. cbn [shr_m]. intros Hm.
  destruct m as [|[p|p|]|p]; cbn [shr_1 shr_m]; try lia; try reflexivity.
  - rewrite Pos2Z.inj_xI. apply (Z.div_unique _ 2 _ 1); lia.
  - rewrite Pos2Z.inj_xO. apply (Z.div_unique _ 2 _ 0); lia.
Qed.

Lemma shr_1_nonneg mrs : 0 <= shr_m mrs -> 0 <= shr_m (shr_1 mrs).
Proof.
  intros H. rewrite shr_1_m by assumption. apply Z.div_pos; lia.
Qed.

Lemma iter_shr_m p : forall mrs,
  0 <= shr_m mrs ->
  shr_m (SpecFloat.iter_pos shr_1 p mrs) = shr_m mrs / 2 ^ Z.pos p.
Proof.
  induction p as [p IH|p IH|]; intros mrs Hm; cbn [SpecFloat.iter_pos].
  - assert (H1 : 0 <= shr_m (shr_1 mrs)) by auto using shr_1_nonneg.
    assert (H2 : 0 <= shr_m (SpecFloat.iter_pos shr_1 p (shr_1 mrs))).
    { rewrite IH by assumption. apply Z.div_pos; lia. }
    rewrite IH, IH, shr_1_m by assumption.
    rewrite !Z.div_div by lia. f_equal.
    replace (Z.pos p~1) with (1 + Z.pos p + Z.pos p) by lia.
    rewrite !Z.pow_add_r by lia. change (2 ^ 1) with 2. lia.
  - assert (H2 : 0 <= shr_m (SpecFloat.iter_pos shr_1 p mrs)).
    { rewrite IH by assumption. apply Z.div_pos; lia. }
    rewrite IH, IH by assumption.
    rewrite Z.div_div by lia. f_equal.
    replace (Z.pos p~0) with (Z.pos p + Z.pos p) by lia.
    rewrite Z.pow_add_r by lia. reflexivity.
  - rewrite shr_1_m by assumption. reflexivity.
Qed.

Lemma rne_bounds m l : m <= round_nearest_even m l <= m + 1.
Proof.
  destruct l as [|[]]; cbn; try lia. destruct (Z.even m); lia.
Qed.

(** *** One rounding *)

Lemma shr_nonpos mrs e n : n <= 0 -> shr mrs e n = (mrs, e).
Proof. destruct n; [reflexivity | lia | reflexivity]. Qed.

Lemma shr_pos mrs e n :
  0 < n -> 0 <= shr_m mrs ->
  exists mrs', shr mrs e n = (mrs', e + n) /\ shr_m mrs' = shr_m mrs / 2 ^ n.
Proof.
  intros Hn Hm. destruct n as [|p|p]; try lia.
  eexists. split; [reflexivity |]. apply iter_shr_m, Hm.
Qed.

Lemma shr_fexp_exact m e :
  Z.pos (digits2_pos m) <= 53 -> -1074 <= e ->
  shr_fexp 53 1024 (Z.pos m) e loc_Exact =
  ({| shr_m := Z.pos m; shr_r := false; shr_s := false |}, e).
Proof.
  intros Hd He. unfold shr_fexp, fexp, emin. cbn [Zdigits2 shr_record_of_loc].
  apply shr_nonpos. lia.
Qed.

Lemma round_aux_exact m e :
  Z.pos (digits2_pos m) <= 53 -> -1074 <= e <= 971 ->
  binary_round_aux 53 1024 false (Z.pos m) e loc_Exact = S754_finite false m e.
Proof.
  intros Hd He. unfold binary_round_aux.
  rewrite shr_fexp_exact by lia. cbn [shr_m loc_of_shr_record round_nearest_even].
  rewrite shr_fexp_exact by lia. cbn [shr_m].
  destruct (Z.leb_spec e (1024 - 53)); [reflexivity | lia].
Qed.

(** Rounding a mantissa of more than 53 digits: the result is the
    quotient by [2 ^ n] or its successor, at the exponent raised by [n]. *)
Lemma round_aux_spec m e :
  let n := Z.pos (digits2_pos m) - 53 in
  0 < n -> -1074 <= e -> e + n + 1 <= 971 ->
  exists m' e' q,
    binary_round_aux 53 1024 false (Z.pos m) e loc_Exact = S754_finite false m' e' /\
    Z.pos m / 2 ^ n <= q <= Z.pos m / 2 ^ n + 1 /\
    Z.pos (digits2_pos m') = 53 /\
    ((e' = e + n /\ Z.pos m' = q) \/ (e' = e + n + 1 /\ 2 * Z.pos m' = q)).
Proof.
  intros n Hn He Hov.
  pose proof (digits_bounds m) as [Hlo Hhi].
  set (d := Z.pos (digits2_pos m)) in *.
  assert (Hm0 : 2 ^ 52 <= Z.pos m / 2 ^ n < 2 ^ 53).
  { assert (Hp : 0 < 2 ^ n) by (apply Z.pow_pos_nonneg; lia). split.
    - apply Z.div_le_lower_bound; [lia |].
      rewrite <- Z.pow_add_r by lia. replace (n + 52) with (d - 1) by (subst n; lia). lia.
    - apply Z.div_lt_upper_bound; [lia |].
      rewrite <- Z.pow_add_r by lia. replace (n + 53) with d by (subst n; lia). lia. }
  unfold binary_round_aux.
  unfold shr_fexp at 1. unfold fexp at 1. unfold emin at 1. cbn [Zdigits2 shr_record_of_loc]. fold d.
  replace (Z.max (d + e - 53) (3 - 1024 - 53) - e) with n by (subst n; lia).
  destruct (shr_pos {| shr_m := Z.pos m; shr_r := false; shr_s := false |} e n Hn)
    as (mrs' & -> & Hm'); [cbn; lia |].
  cbn [shr_m] in Hm'.
  set (q := round_nearest_even (shr_m mrs') (loc_of_shr_record mrs')).
  pose proof (rne_bounds (shr_m mrs') (loc_of_shr_record mrs')) as Hq. fold q in Hq.
  rewrite Hm' in Hq.
  destruct q as [|q1|q1] eqn:Eq; [lia | | lia].
  destruct (Z.eq_dec (Z.pos q1) (2 ^ 53)) as [Htop|Hnot].
  - (* the rounding carried into a 54th digit *)
    assert (Hq1 : q1 = 9007199254740992%positive) by (change (2 ^ 53) with 9007199254740992 in Htop; lia).
    subst q1.
    unfold shr_fexp, fexp, emin. cbn [Zdigits2 shr_record_of_loc].
    change (Z.pos (digits2_pos 9007199254740992)) with 54.
    replace (Z.max (54 + (e + n) - 53) (3 - 1024 - 53) - (e + n)) with 1 by lia.
    cbn [shr SpecFloat.iter_pos shr_1 shr_m].
    exists (4503599627370496)%positive, (e + n + 1), 9007199254740992.
    replace (e + n + 1 <=? 1024 - 53) with true by (symmetry; apply Z.leb_le; lia).
    split; [reflexivity |]. split; [lia |]. split; [reflexivity |].
    right. split; reflexivity.
  - assert (Hd1 : Z.pos (digits2_pos q1) = 53)
      by (apply digits_unique; change (53 - 1) with 52; lia).
    rewrite shr_fexp_exact by lia. cbn [shr_m].
    exists q1, (e + n), (Z.pos q1).
    replace (e + n <=? 1024 - 53) with true by (symmetry; apply Z.leb_le; lia).
    split; [reflexivity |]. split; [lia |]. split; [assumption |].
    left. split; reflexivity.
Qed.

Lemma iter_xO mx d : Z.pos (Pos.iter xO mx d) = Z.pos mx * 2 ^ Z.pos d.
Proof.
  induction d as [|d IH] using Pos.peano_ind.
  - cbn [Pos.iter]. change (2 ^ 1) with 2. lia.
  - rewrite Pos.iter_succ. replace (Z.pos (Pos.succ d)) with (1 + Z.pos d) by lia.
    rewrite Z.pow_add_r by lia. change (2 ^ 1) with 2.
    change (Z.pos (Pos.iter xO mx d)~0) with (2 * Z.pos (Pos.iter xO mx d)). lia.
Qed.

Lemma shl_align_le mx ex ez :
  ez <= ex ->
  exists m, shl_align mx ex ez = (m, ez) /\ Z.pos m = Z.pos mx * 2 ^ (ex - ez).
Proof.
  intros H. unfold shl_align. destruct (ez - ex) as [|d|d] eqn:E; [| lia |].
  - exists mx. replace ez with ex by lia. rewrite Z.sub_diag. split; [reflexivity | cbn; lia].
  - exists (Pos.iter xO mx d). split; [reflexivity |].
    replace (ex - ez) with (Z.pos d) by lia. apply iter_xO.
Qed.

Lemma shl_align_ge mx ex ez : ex <= ez -> shl_align mx ex ez = (mx, ex).
Proof.
  intros H. unfold shl_align. destruct (ez - ex) eqn:E; [reflexivity | reflexivity | lia].
Qed.

Lemma normalize_big s ez :
  53 <= Z.pos (digits2_pos s) -> -1074 <= ez ->
  binary_normalize 53 1024 (Z.pos s) ez false =
  binary_round_aux 53 1024 false (Z.pos s) ez loc_Exact.
Proof.
  intros Hd He. unfold binary_normalize, binary_round.
  rewrite shl_align_ge; [reflexivity |]. unfold fexp, emin. lia.
Qed.

Lemma of_int_spec r :
  0 < r < 2 ^ 53 ->
  exists m a,
    Float64.of_int r = Some (S754_finite false m (- a)) /\
    0 <= a <= 52 /\ Z.pos m = r * 2 ^ a /\ Z.pos (digits2_pos m) = 53.
Proof.
  intros [Hpos Hlt]. destruct r as [|p|p]; try lia.
  pose proof (digits_bounds p) as [Hlo Hhi].
  set (d := Z.pos (digits2_pos p)) in *.
  assert (Hd : 1 <= d <= 53).
  { split; [subst d; lia |].
    destruct (Z.le_gt_cases d 53) as [|Hgt]; [assumption |].
    assert (2 ^ 53 <= 2 ^ (d - 1)) by (apply Z.pow_le_mono_r; lia). lia. }
  unfold Float64.of_int, Float64.prec, Float64.emax, binary_normalize, binary_round.
  replace (fexp 53 1024 (Z.pos (digits2_pos p) + 0)) with (d - 53)
    by (unfold fexp, emin; fold d; lia).
  destruct (shl_align_le p 0 (d - 53)) as (m & -> & Hm); [lia |].
  replace (0 - (d - 53)) with (53 - d) in Hm by lia.
  assert (Hdm : Z.pos (digits2_pos m) = 53).
  { apply digits_unique. rewrite Hm. change (53 - 1) with 52.
    assert (Hp : 0 < 2 ^ (53 - d)) by (apply Z.pow_pos_nonneg; lia).
    replace (2 ^ 52) with (2 ^ (d - 1) * 2 ^ (53 - d))
      by (rewrite <- Z.pow_add_r by lia; f_equal; lia).
    replace (2 ^ 53) with (2 ^ d * 2 ^ (53 - d))
      by (rewrite <- Z.pow_add_r by lia; f_equal; lia).
    split; [apply Z.mul_le_mono_nonneg_r | apply Z.mul_lt_mono_pos_r]; lia. }
  rewrite round_aux_exact by lia.
  exists m, (53 - d). replace (- (53 - d)) with (d - 53) by lia.
  repeat split; auto; lia.
Qed.

Lemma digits_ge m k : 2 ^ k <= Z.pos m -> k + 1 <= Z.pos (digits2_pos m).
Proof.
  intros H. pose proof (digits_bounds m) as [_ Hhi].
  destruct (Z.le_gt_cases (k + 1) (Z.pos (digits2_pos m))) as [|Hgt]; [assumption |].
  assert (2 ^ Z.pos (digits2_pos m) <= 2 ^ k) by (apply Z.pow_le_mono_r; lia). lia.
Qed.

Lemma digits_le m k : 0 <= k -> Z.pos m < 2 ^ k -> Z.pos (digits2_pos m) <= k.
Proof.
  intros Hk H. pose proof (digits_bounds m) as [Hlo _].
  destruct (Z.le_gt_cases (Z.pos (digits2_pos m)) k) as [|Hgt]; [assumption |].
  assert (2 ^ k <= 2 ^ (Z.pos (digits2_pos m) - 1)) by (apply Z.pow_le_mono_r; lia). lia.
Qed.

(** Rounding a mantissa of at least 53 digits. *)
Lemma round_aux_any m e :
  let n := Z.pos (digits2_pos m) - 53 in
  0 <= n -> -1074 <= e -> e + n + 1 <= 971 ->
  exists m' e' q,
    binary_round_aux 53 1024 false (Z.pos m) e loc_Exact = S754_finite false m' e' /\
    Z.pos m / 2 ^ n <= q <= Z.pos m / 2 ^ n + 1 /\
    Z.pos (digits2_pos m') = 53 /\
    ((e' = e + n /\ Z.pos m' = q) \/ (e' = e + n + 1 /\ 2 * Z.pos m' = q)).
Proof.
  intros n Hn He Hov. destruct (Z.eq_dec n 0) as [Hz|Hnz].
  - exists m, e, (Z.pos m). rewrite round_aux_exact by lia.
    rewrite Hz, Z.pow_0_r, Z.div_1_r.
    split; [reflexivity |]. split; [lia |]. split; [lia |]. left. lia.
  - apply round_aux_spec; lia.
Qed.

(** [int] of a positive float with 53 digits at a negative exponent. *)
Lemma to_int_floor m e q W :
  1 <= W ->
  ((e = - W /\ Z.pos m = q) \/ (e = - W + 1 /\ 2 * Z.pos m = q)) ->
  Float64.to_int (S754_finite false m e) = Some (q / 2 ^ W).
Proof.
  intros HW [[-> <-] | [-> <-]]; unfold Float64.to_int; cbn [cond_Zopp]; f_equal.
  - destruct (- W) as [|p|p] eqn:E; try lia. replace W with (Z.pos p) by lia. reflexivity.
  - destruct (Z.eq_dec W 1) as [->|HW1].
    + change (- 1 + 1) with 0. cbv iota.
      change (2 ^ 0) with 1. change (2 ^ 1) with 2.
      rewrite Z.mul_1_r, (Z.mul_comm 2), Z.div_mul by lia. reflexivity.
    + destruct (- W + 1) as [|p|p] eqn:E; try lia.
      replace W with (1 + Z.pos p) by lia.
      rewrite Z.pow_add_r by lia. change (2 ^ 1) with 2.
      rewrite Z.div_mul_cancel_l; [reflexivity | | lia].
      apply Z.pow_nonzero; lia.
Qed.

(** *** The special damage of a roll *)

(** The arithmetic of the two roundings, with the powers of two named. *)
Lemma special_arith (r N pT pc pW pn q0 q1 X S q3 : Z) :
  0 < r < 2 ^ 40 ->
  100 * N <= 135 * r < 100 * N + 100 ->
  0 <= N ->
  pT * pc = 2 ^ 52 -> 2 ^ 12 <= pT -> 0 < pc ->
  2 ^ 11 <= pW -> 0 < pn ->
  q0 * pc <= r * 6079859496950170 < q0 * pc + pc ->
  q0 <= q1 <= q0 + 1 ->
  X * pT = q1 * (pW * pn) ->
  S = X + 6 * (pW * pn) ->
  q3 * pn <= S + pn -> S < q3 * pn + pn ->
  (N + 6) * pW <= q3 < (N + 7) * pW.
Proof.
  intros Hr HN HN0 Hprod HpT Hpc HpW Hpn Hq0 Hq1 HX HS Hlo Hhi.
  change (2 ^ 52) with 4503599627370496 in *.
  change (2 ^ 40) with 1099511627776 in *.
  change (2 ^ 12) with 4096 in *.
  change (2 ^ 11) with 2048 in *.
  assert (HNq : N * pT <= q0).
  { assert (N * pT * pc < (q0 + 1) * pc) by nia.
    apply Z.lt_succ_r. apply (Z.mul_lt_mono_pos_r pc); lia. }
  split.
  - (* (N + 6) * pW * pn <= S *)
    assert (N * (pW * pn) <= X).
    { apply (Z.mul_le_mono_pos_r _ _ pT); [lia |]. rewrite HX. nia. }
    assert ((N + 6) * pW * pn < (q3 + 1) * pn) by nia.
    assert ((N + 6) * pW < q3 + 1) by (apply (Z.mul_lt_mono_pos_r pn); lia).
    lia.
  - assert (Hkey : q1 * pc * pW + 4503599627370496 < (N + 1) * pW * 4503599627370496).
    { assert (q1 * pc <= r * 6079859496950170 + pc) by nia.
      assert (pc <= 1099511627776) by nia.
      nia. }
    assert (HX2 : X * pT + pn * pT < (N + 1) * (pW * pn) * pT).
    { rewrite HX.
      assert (q1 * pW + pT < (N + 1) * pW * pT).
      { apply (Z.mul_lt_mono_pos_r pc); [lia |].
        replace ((q1 * pW + pT) * pc) with (q1 * pc * pW + pT * pc) by ring.
        replace ((N + 1) * pW * pT * pc) with ((N + 1) * pW * (pT * pc)) by ring.
        rewrite Hprod. exact Hkey. }
      nia. }
    assert (HX3 : X + pn < (N + 1) * (pW * pn)).
    { apply (Z.mul_lt_mono_pos_r pT); [lia |].
      replace ((X + pn) * pT) with (X * pT + pn * pT) by ring. exact HX2. }
    assert (q3 * pn < (N + 7) * pW * pn) by nia.
    apply (Z.mul_lt_mono_pos_r pn); lia.
Qed.

Lemma pow2_pos k : 0 <= k -> 0 < 2 ^ k.
Proof. intros. apply Z.pow_pos_nonneg; lia. Qed.

Lemma pow2_split a b : 0 <= a -> 0 <= b -> 2 ^ (a + b) = 2 ^ a * 2 ^ b.
Proof. intros. apply Z.pow_add_r; assumption. Qed.

Theorem special_of_roll_pos r :
  0 < r < 2 ^ 40 -> Creature.special_of_roll r = Some (r * 135 / 100 + 6).
Proof.
  intros Hr.
  set (N := r * 135 / 100).
  assert (HN : 100 * N <= 135 * r < 100 * N + 100).
  { subst N. pose proof (Z.mul_div_le (r * 135) 100 ltac:(lia)).
    pose proof (Z.mul_succ_div_gt (r * 135) 100 ltac:(lia)). lia. }
  assert (HN0 : 0 <= N) by (subst N; apply Z.div_pos; lia).
  assert (H40 : 2 ^ 40 < 2 ^ 53) by (apply Z.pow_lt_mono_r; lia).
  destruct (of_int_spec r) as (mb & a & Hof & Ha & Hmb & Hdb); [lia |].
  unfold Creature.special_of_roll. rewrite Hof.
  pose proof (digits_bounds mb) as Hbb. rewrite Hdb in Hbb. change (53 - 1) with 52 in Hbb.
  assert (Ha13 : 13 <= a).
  { destruct (Z.le_gt_cases 13 a) as [|Hlt]; [assumption |].
    assert (2 ^ a <= 2 ^ 12) by (apply Z.pow_le_mono_r; lia).
    assert (r * 2 ^ a < 2 ^ 40 * 2 ^ 12) by (pose proof (pow2_pos a); nia).
    rewrite <- pow2_split in * by lia. change (40 + 12) with 52 in *. lia. }
  (* the product *)
  unfold Float64.mul, Float64.lit_1_35, Float64.prec, Float64.emax. cbn [SFmul xorb].
  set (P := (mb * 6079859496950170)%positive).
  assert (HP : Z.pos P = r * 6079859496950170 * 2 ^ a) by (subst P; lia).
  assert (HdP : 105 <= Z.pos (digits2_pos P) <= 106).
  { split.
    - apply (digits_ge P 104). replace 104 with (52 + 52) by lia.
      rewrite pow2_split by lia. subst P. rewrite Pos2Z.inj_mul.
      apply Z.mul_le_mono_nonneg; [lia | lia | lia |]. 
      change (2 ^ 52) with 4503599627370496. lia.
    - apply (digits_le P 106); [lia |]. replace 106 with (53 + 53) by lia.
      rewrite pow2_split by lia. subst P. rewrite Pos2Z.inj_mul.
      apply Z.mul_lt_mono_nonneg; [lia | lia | lia |].
      change (2 ^ 53) with 9007199254740992. lia. }
  destruct (round_aux_any P (- a + -52)) as (m2 & e2 & q1 & Hmul & Hq1 & Hd2 & He2);
    [lia | lia | lia |].
  rewrite Hmul. clear Hmul.
  set (n := Z.pos (digits2_pos P) - 53) in *.
  set (T := a + 52 - n).
  assert (HT : 12 <= T <= 52) by (subst T n; lia).
  set (pT := 2 ^ T). set (pc := 2 ^ (52 - T)).
  assert (HpT : 2 ^ 12 <= pT) by (apply Z.pow_le_mono_r; lia).
  assert (Hpc : 0 < pc) by (apply pow2_pos; lia).
  assert (Hprod : pT * pc = 2 ^ 52).
  { subst pT pc. rewrite <- pow2_split by lia. f_equal. lia. }
  set (q0 := Z.pos P / 2 ^ n) in *.
  assert (Hq0 : q0 * pc <= r * 6079859496950170 < q0 * pc + pc).
  { assert (E : q0 = r * 6079859496950170 / pc).
    { subst q0 pc. rewrite HP. replace n with (52 - T + a) by (subst T; lia).
      rewrite pow2_split by lia.
      apply Z.div_mul_cancel_r; apply Z.pow_nonzero; lia. }
    rewrite E.
    pose proof (Z.mul_div_le (r * 6079859496950170) pc Hpc).
    pose proof (Z.mul_succ_div_gt (r * 6079859496950170) pc Hpc). lia. }
  pose proof (digits_bounds m2) as Hb2. rewrite Hd2 in Hb2. change (53 - 1) with 52 in Hb2.
  (* the sum *)
  unfold Float64.add, Float64.lit_6, Float64.prec, Float64.emax, SFadd. cbn [cond_Zopp].
  set (ez := Z.min e2 (-50)).
  set (U := - ez).
  assert (He2T : e2 = - T \/ e2 = - T + 1) by (subst T; lia).
  assert (HU : 50 <= U /\ T - 1 <= U /\ e2 - ez = e2 + U /\ -50 - ez = U - 50)
    by (subst U ez; lia).
  destruct (shl_align_le m2 e2 ez) as (X1 & -> & HX1); [subst ez; lia |].
  destruct (shl_align_le 6755399441055744 (-50) ez) as (X2 & -> & HX2); [subst ez; lia |].
  cbn [fst].
  change (IntDef.Z.add (Z.pos X1) (Z.pos X2)) with (Z.pos (X1 + X2)).
  assert (HX2' : Z.pos X2 = 6 * 2 ^ U).
  { rewrite HX2. replace (-50 - ez) with (U - 50) by lia.
    replace U with (50 + (U - 50)) at 2 by lia. rewrite pow2_split by lia.
    change (2 ^ 50) with 1125899906842624. lia. }
  assert (HX1' : Z.pos X1 * pT = q1 * 2 ^ U).
  { rewrite HX1. subst pT. replace (e2 - ez) with (e2 + U) by lia.
    destruct He2 as [[He2 Hm2] | [He2 Hm2]].
    - rewrite Hm2. rewrite <- Z.mul_assoc, <- pow2_split by lia. do 2 f_equal. subst T. lia.
    - rewrite <- Hm2. rewrite <- Z.mul_assoc, <- pow2_split by lia.
      replace (2 * Z.pos m2 * 2 ^ U) with (Z.pos m2 * (2 ^ 1 * 2 ^ U)) by (change (2 ^ 1) with 2; ring).
      rewrite <- pow2_split by lia. do 2 f_equal. subst T. lia. }
  set (S := (X1 + X2)%positive).
  assert (HS : Z.pos S = Z.pos X1 + 6 * 2 ^ U) by (subst S; lia).
  assert (HpU : 0 < 2 ^ U) by (apply pow2_pos; lia).
  assert (HSlo : 2 ^ 52 <= Z.pos S).
  { assert (1 <= 2 ^ (e2 + U)) by (pose proof (pow2_pos (e2 + U)); lia).
    rewrite HS, HX1. replace (e2 - ez) with (e2 + U) by lia. nia. }
  assert (HShi : Z.pos S < 2 ^ (U + 42)).
  { rewrite pow2_split by lia. change (2 ^ 42) with 4398046511104.
    assert (q0 < 2199023255552 * pT).
    { apply (Z.mul_lt_mono_pos_r pc); [lia |].
      replace (2199023255552 * pT * pc) with (2199023255552 * (pT * pc)) by ring.
      rewrite Hprod. change (2 ^ 52) with 4503599627370496.
      change (2 ^ 40) with 1099511627776 in Hr. lia. }
    assert (Z.pos X1 * pT <= 2199023255552 * 2 ^ U * pT) by (rewrite HX1'; nia).
    assert (Z.pos X1 <= 2199023255552 * 2 ^ U).
    { apply (Z.mul_le_mono_pos_r _ _ pT); [subst pT; apply pow2_pos |]; lia. }
    lia. }
  assert (HdS : 53 <= Z.pos (digits2_pos S) <= U + 42).
  { split; [apply (digits_ge S 52), HSlo | apply digits_le; [lia | exact HShi]]. }
  rewrite normalize_big by (subst ez; lia).
  destruct (round_aux_any S ez) as (m3 & e3 & q3 & Hadd & Hq3 & Hd3 & He3);
    [lia | subst ez; lia | subst U; lia |].
  rewrite Hadd. clear Hadd.
  set (n3 := Z.pos (digits2_pos S) - 53) in *.
  set (W := U - n3).
  assert (HW : 11 <= W) by (subst W n3; lia).
  rewrite (to_int_floor m3 e3 q3 W); [| lia | subst W U; lia].
  f_equal.
  set (pW := 2 ^ W). set (pn := 2 ^ n3).
  assert (HpW : 2 ^ 11 <= pW) by (apply Z.pow_le_mono_r; lia).
  assert (Hpn : 0 < pn) by (apply pow2_pos; subst n3; lia).
  assert (HpWn : 2 ^ U = pW * pn).
  { subst pW pn. rewrite <- pow2_split by (subst n3; lia). f_equal. subst W. lia. }
  assert (Hs0 : (Z.pos S / pn) * pn <= Z.pos S < (Z.pos S / pn) * pn + pn).
  { pose proof (Z.mul_div_le (Z.pos S) pn Hpn).
    pose proof (Z.mul_succ_div_gt (Z.pos S) pn Hpn). lia. }
  fold pn in Hq3.
  assert (Hgoal : (N + 6) * pW <= q3 < (N + 7) * pW).
  { refine (special_arith r N pT pc pW pn q0 q1 (Z.pos X1) (Z.pos S) q3
              Hr HN HN0 Hprod HpT Hpc HpW Hpn Hq0 Hq1 _ _ _ _).
    - rewrite <- HpWn. exact HX1'.
    - rewrite <- HpWn. exact HS.
    - apply Z.le_trans with ((Z.pos S / pn + 1) * pn); [| lia].
      apply Z.mul_le_mono_nonneg_r; lia.
    - apply Z.lt_le_trans with (Z.pos S / pn * pn + pn); [lia |].
      apply Z.add_le_mono_r, Z.mul_le_mono_nonneg_r; lia. }
  assert (HpW0 : 0 < pW) by (change (2 ^ 11) with 2048 in HpW; lia).
  symmetry. apply (Z.div_unique _ _ _ (q3 - (N + 6) * pW)); lia.
Qed.

(** The literals are the binary64 values nearest to 1.35 and to 6. *)
Lemma lit_1_35_nearest :
  match Float64.of_int 135, Float64.of_int 100 with
  | Some x, Some y => Float64.div x y = Float64.lit_1_35
  | _, _ => False
  end.
Proof. vm_compute. reflexivity. Qed.

Lemma lit_6_exact : Float64.of_int 6 = Some Float64.lit_6.
Proof. vm_compute. reflexivity. Qed.

Lemma special_of_roll_nonneg r :
  0 <= r < 2 ^ 40 -> Creature.special_of_roll r = Some (r * 135 / 100 + 6).
Proof.
  intros [H0 Hlt]. destruct (Z.eq_dec r 0) as [->|Hnz]; [vm_compute; reflexivity |].
  apply special_of_roll_pos. lia.
Qed.

End Float64Facts.

Module PyFacts.
Import Py.

Section Wp.
Context {S A : Type}.
Implicit Types (Q : A -> S -> Prop) (E : S -> Prop) (s : S).


Lemma wp_raise e Q E s : E s -> wp (raise e) Q E s.
Proof. auto. Qed.


End Wp.




End PyFacts.

Module RandomFacts.
Import Random.

Lemma randint_ok a b g :
  a <= b -> randint a b g = Py.Ok (a + next g mod (b - a + 1)) (advance g).
Proof.
  intros Hab. unfold randint. destruct (Z.ltb_spec b a); [lia | reflexivity].
Qed.

Lemma randint_empty a b g : b < a -> randint a b g = Py.Raise Py.ValueError g.
Proof.
  intros Hab. unfold randint. destruct (Z.ltb_spec b a); [reflexivity | lia].
Qed.

Lemma randint_range a b x : a <= b -> a <= a + x mod (b - a + 1) <= b.
Proof. intros Hab. pose proof (Z.mod_pos_bound x (b - a + 1)). lia. Qed.

Lemma choice_ok {A} (seq : list A) g :
  seq <> [] -> exists x, x ∈ seq /\ choice seq g = Py.Ok x (advance g).
Proof.
  destruct seq as [|x0 seq']; [congruence | intros _].
  set (l := x0 :: seq').
  exists (nth (Z.to_nat (next g mod Z.of_nat (length l))) l x0). split; [| reflexivity].
  apply list_elem_of_In, nth_In.
  pose proof (Z.mod_pos_bound (next g) (Z.of_nat (length l))).
  subst l. cbn [length] in *. lia.
Qed.

Lemma choice_empty {A} g : choice (@nil A) g = Py.Raise Py.IndexError g.
Proof. reflexivity. Qed.

End RandomFacts.

Module BattleFacts.
Import Py PyFacts Random RandomFacts Battle.

Ltac fields :=
  unfold _alive_enemies, _alive_indices in *;
  cbn [player enemies outcome target_index message popups layout enemy_positions random
       with_player with_enemies with_outcome with_target_index with_message with_popups
       with_enemy_positions with_random] in *.

(** *** Alive enemies *)

Lemma alive_from_length idx es : length (alive_from idx es) = length (alive_of es).
Proof.
  revert idx. induction es as [|e es IH]; intros idx; [reflexivity |].
  cbn. destruct (alive e); cbn; auto.
Qed.

Lemma alive_from_nil idx es : alive_from idx es = [] <-> alive_of es = [].
Proof.
  split; intros H; apply nil_length_inv.
  - rewrite <- (alive_from_length idx), H. reflexivity.
  - rewrite alive_from_length, H. reflexivity.
Qed.

Lemma alive_of_alive e es : e ∈ alive_of es -> alive e = true /\ e ∈ es.
Proof.
  unfold alive_of. rewrite !list_elem_of_In, filter_In. tauto.
Qed.

(** The [k]-th alive reference designates the [k]-th alive enemy. *)
Lemma alive_from_lookup es : forall idx k r,
  alive_from idx es !! k = Some r ->
  exists e, (idx <= r)%nat /\ es !! (r - idx)%nat = Some e /\ alive e = true /\
            alive_of es !! k = Some e.
Proof.
  induction es as [|e es IH]; intros idx k r Hk; [discriminate |].
  cbn in Hk. unfold alive_of. cbn [List.filter]. destruct (alive e) eqn:He.
  - destruct k as [|k]; cbn in Hk.
    + injection Hk as <-. exists e. rewrite Nat.sub_diag. auto.
    + destruct (IH _ _ _ Hk) as (e' & Hle & Hr & Ha & Hk').
      exists e'. replace (r - idx)%nat with (S (r - S idx)) by lia.
      repeat split; auto. lia.
  - destruct (IH _ _ _ Hk) as (e' & Hle & Hr & Ha & Hk').
    exists e'. replace (r - idx)%nat with (S (r - S idx)) by lia.
    repeat split; auto. lia.
Qed.

(** Damage that leaves an alive enemy alive does not change who is alive. *)
Lemma alive_from_alter_alive f es : forall idx r e,
  es !! r = Some e -> alive e = true -> alive (f e) = true ->
  alive_from idx (alter f r es) = alive_from idx es.
Proof.
  induction es as [|e0 es IH]; intros idx r e Hr He Hf; [discriminate |].
  destruct r as [|r]; cbn in *.
  - injection Hr as ->. rewrite He, Hf. reflexivity.
  - rewrite (IH (S idx) r e); auto.
Qed.

Lemma alive_of_alter_alive f es r e :
  es !! r = Some e -> alive e = true -> alive (f e) = true ->
  length (alive_of (alter f r es)) = length (alive_of es).
Proof.
  intros. rewrite <- !(alive_from_length 0). f_equal. eauto using alive_from_alter_alive.
Qed.

Lemma rolls_ok_take_damage d e : rolls_ok e -> rolls_ok (Creature.take_damage d e).
Proof. auto. Qed.

Lemma Forall_rolls_ok_alter d r es :
  Forall rolls_ok es -> Forall rolls_ok (alter (Creature.take_damage d) r es).
Proof.
  intros H. revert r. induction H as [|e es He Hes IH]; intros [|r]; cbn;
    constructor; auto using rolls_ok_take_damage.
Qed.

(** Dealing the damages through the references of the alive enemies is
    dealing them to the alive enemies in order. *)
Lemma hit_alive_fold es : forall pre ds,
  foldl (fun acc rd => alter (Creature.take_damage rd.2) rd.1 acc) (pre ++ es)
        (zip (alive_from (length pre) es) ds)
  = pre ++ hit_alive ds es.
Proof.
  induction es as [|e es IH]; intros pre ds; [reflexivity |].
  cbn [alive_from hit_alive]. destruct (alive e) eqn:He.
  - destruct ds as [|d ds]; [reflexivity |].
    cbn [zip zip_with foldl fst snd].
    replace (alter (Creature.take_damage d) (length pre) (pre ++ e :: es))
      with ((pre ++ [Creature.take_damage d e]) ++ es).
    + replace (S (length pre)) with (length (pre ++ [Creature.take_damage d e]))
        by (rewrite length_app; cbn; lia).
      rewrite IH, <- app_assoc. reflexivity.
    + rewrite <- app_assoc. cbn.
      rewrite alter_app_r_alt by lia. rewrite Nat.sub_diag. reflexivity.
  - replace (pre ++ e :: es) with ((pre ++ [e]) ++ es) by (rewrite <- app_assoc; reflexivity).
    replace (S (length pre)) with (length (pre ++ [e])) by (rewrite length_app; cbn; lia).
    rewrite IH, <- app_assoc. reflexivity.
Qed.


Lemma hit_alive_rolls_ok es : forall ds,
  Forall rolls_ok es -> Forall rolls_ok (hit_alive ds es).
Proof.
  induction es as [|e es IH]; intros ds H; cbn; [constructor |].
  inversion H; subst.
  destruct (alive e); [destruct ds |]; constructor; auto using rolls_ok_take_damage.
Qed.

(** *** Draws *)

Lemma roll_at_0 c g :
  roll_at c g 0 =
  Creature.damage_min c + next g mod (Creature.damage_max c - Creature.damage_min c + 1).
Proof. unfold roll_at, next. rewrite Nat.add_0_r. reflexivity. Qed.

Lemma roll_at_range c g k :
  rolls_ok c -> Creature.damage_min c <= roll_at c g k <= Creature.damage_max c.
Proof. intros H. apply randint_range, H. Qed.

Lemma roll_damage_ok c g :
  rolls_ok c -> Creature.roll_damage c g = Ok (roll_at c g 0) (advance g).
Proof. intros H. unfold Creature.roll_damage. rewrite randint_ok, roll_at_0; auto. Qed.

Lemma roll_special_damage_ok c g :
  rolls_ok c -> special_ok c ->
  Creature.roll_special_damage c g = Ok (special_damage (roll_at c g 0)) (advance g).
Proof.
  intros H Hs. unfold Creature.roll_special_damage, bind.
  rewrite roll_damage_ok by assumption.
  unfold special_damage.
  destruct (Hs (roll_at c g 0) (roll_at_range c g 0 H)) as [d ->]. reflexivity.
Qed.



Lemma rolls_from_length c n : forall g, length (rolls_from c g n) = n.
Proof. induction n; intros g; cbn; auto. Qed.

Lemma draw_eq {A} (m : Random.M A) s a g' :
  m (random s) = Ok a g' -> draw m s = Ok a (with_random g' s).
Proof. unfold draw, zoom. intros ->. reflexivity. Qed.

(** *** The loop of the area attack *)

Lemma special_all_run snapshot : forall idx total s,
  rolls_ok (player s) -> special_ok (player s) ->
  (idx + length snapshot <= length (enemy_positions s))%nat ->
  special_all idx snapshot total s =
  let ds := List.map special_damage (rolls_from (player s) (random s) (length snapshot)) in
  Ok (total + total_of ds)
     (with_popups (popups s ++ zip_with hit_popup_of ds (drop idx (enemy_positions s)))
        (with_enemies
           (foldl (fun acc rd => alter (Creature.take_damage rd.2) rd.1 acc) (enemies s)
                  (zip snapshot ds))
           (with_random (advance_by (length snapshot) (random s)) s))).
Proof.
  induction snapshot as [|enemy rest IH]; intros idx total s Hr Hs Hlen.
  - cbn. rewrite Z.add_0_r, app_nil_r. destruct s; reflexivity.
  - cbn [special_all length] in *.
    destruct (lookup_lt_is_Some_2 (enemy_positions s) idx ltac:(lia)) as [p Hp].
    unfold bind at 1. unfold player_roll_special_damage, bind at 1. unfold get at 1.
    rewrite (draw_eq _ _ _ _ (roll_special_damage_ok _ (random s) Hr Hs)).
    unfold bind at 1. unfold enemy_take_damage, modify at 1.
    unfold bind at 1. unfold position_at, bind at 1. unfold get at 1. fields.
    rewrite Hp. unfold ret at 1.
    unfold bind at 1. unfold hit_popup, _add_popup, modify at 1.
    rewrite IH by (fields; auto; lia). fields.
    cbn [rolls_from List.map zip zip_with foldl total_of foldr fst snd advance_by].
    rewrite (drop_S _ _ _ Hp). cbn [zip_with].
    rewrite <- app_assoc. cbn [app].
    f_equal. unfold total_of. lia.
Qed.
(** *** The counterattack *)

Lemma counterattack_run summary s :
  Forall rolls_ok (enemies s) -> _alive_enemies s <> [] ->
  exists s', counterattack summary s = Ok tt s' /\ counterattacked summary s s'.
Proof.
  intros Hes Hne.
  destruct (choice_ok (_alive_enemies s) (random s) Hne) as (counter & Hin & Hch).
  assert (Hc : rolls_ok counter).
  { apply alive_of_alive in Hin as [_ Hin]. rewrite Forall_forall in Hes. auto. }
  set (d := roll_at counter (advance (random s)) 0).
  assert (Hd : Creature.damage_min counter <= d <= Creature.damage_max counter)
    by (apply roll_at_range, Hc).
  unfold counterattacked, counterattack.
  unfold bind at 1. unfold get at 1.
  unfold bind at 1. rewrite (draw_eq _ _ _ _ Hch).
  unfold bind at 1.
  rewrite (draw_eq _ (with_random (advance (random s)) s) _ _
             (roll_damage_ok counter _ Hc)).
  unfold bind at 1. unfold modify at 1.
  unfold bind at 1. unfold _add_popup, modify at 1.
  unfold bind at 1. unfold modify at 1.
  unfold bind at 1. unfold get at 1. fields. fold d.
  destruct (Creature.is_defeated (Creature.take_damage d (player s))) eqn:Hdef.
  - eexists. split; [reflexivity |]. exists counter, d. fields. rewrite Hdef.
    repeat split; auto; apply Hd.
  - eexists. split; [reflexivity |]. exists counter, d. fields. rewrite Hdef.
    repeat split; auto; apply Hd.
Qed.
(** *** The special attack on several enemies *)

Lemma rolls_from_ext c c' n : forall g,
  Creature.damage_min c = Creature.damage_min c' ->
  Creature.damage_max c = Creature.damage_max c' ->
  rolls_from c g n = rolls_from c' g n.
Proof.
  induction n as [|n IH]; intros g Hmin Hmax; cbn; [reflexivity |].
  rewrite IH by assumption. unfold roll_at. rewrite Hmin, Hmax. reflexivity.
Qed.

Lemma area_attack_run s :
  wf s -> 0 < Creature.special_uses (player s) ->
  (1 < length (_alive_enemies s))%nat ->
  exists s',
    _player_attack true s = Ok tt s' /\
    resolved "Enemies defeated!"
      (special_summary
         (total_of (List.map special_damage
                      (rolls_from (player s) (random s) (length (_alive_enemies s))))))
      (struck_all s) (retargeted (struck_all s)) s'.
Proof.
  intros [Hp Hsp Hes Hpos] Huses Hmany.
  unfold _player_attack. unfold bind at 1. unfold get at 1.
  destruct (Z.leb_spec (Creature.special_uses (player s)) 0) as [|_]; [lia |].
  cbn [andb].
  destruct (_alive_indices s) as [|r0 rs] eqn:Hidx.
  { apply alive_from_nil in Hidx. fields. rewrite Hidx in Hmany. cbn in Hmany. lia. }
  destruct (Z.ltb_spec 1 (Z.of_nat (length (_alive_enemies s)))) as [_|]; [| lia].
  rewrite <- Hidx. clear Hidx r0 rs.
  unfold bind at 1. unfold spend_special, modify at 1.
  unfold bind at 1.
  rewrite special_all_run; fields; auto;
    [| rewrite alive_from_length; cbn; lia].
  cbv zeta. unfold bind at 1. unfold get at 1. fields.
  rewrite alive_from_length, drop_0.
  rewrite (hit_alive_fold (enemies s) []).
  rewrite (rolls_from_ext (Creature.spend_special (player s)) (player s)) by reflexivity.
  cbn [app].
  change (Z.add 0) with (fun z : Z => z). cbv beta.
  set (ds := List.map special_damage
                (rolls_from (player s) (random s) (length (alive_of (enemies s))))).
  set (s1 := with_popups _ _).
  change (struck_all s) with s1.
  unfold resolved.
  change (_alive_enemies s1) with (alive_of (hit_alive ds (enemies s))).
  destruct (alive_of (hit_alive ds (enemies s))) as [|a l] eqn:Halive.
  - eexists. split; reflexivity.
  - unfold bind at 1. unfold retarget, modify at 1.
    destruct (counterattack_run (special_summary (total_of ds)) (retargeted s1))
      as (s' & Hrun & Hpost).
    + change (enemies (retargeted s1)) with (hit_alive ds (enemies s)).
      apply hit_alive_rolls_ok, Hes.
    + change (_alive_enemies (retargeted s1)) with (alive_of (hit_alive ds (enemies s))).
      rewrite Halive. discriminate.
    + exists s'. split; assumption.
Qed.
(** *** The attack on one target *)

Lemma alive_of_nonempty es r e :
  es !! r = Some e -> alive e = true -> alive_of es <> [].
Proof.
  intros Hr He Hnil.
  assert (Hin : e ∈ alive_of es).
  { unfold alive_of. rewrite list_elem_of_In, filter_In, <- list_elem_of_In.
    split; [eapply list_elem_of_lookup_2; eauto | assumption]. }
  rewrite Hnil in Hin. inversion Hin.
Qed.

Lemma clamp_index_range i n :
  (0 < n)%nat -> 0 <= clamp_index i n < Z.of_nat n.
Proof. unfold clamp_index. lia. Qed.

Lemma single_attack_run use_special s :
  wf s -> _alive_enemies s <> [] ->
  (use_special = true ->
   0 < Creature.special_uses (player s) /\ length (_alive_enemies s) = 1%nat) ->
  let i := clamp_index (target_index s) (length (_alive_enemies s)) in
  exists ref e s',
    _alive_indices s !! Z.to_nat i = Some ref /\
    enemies s !! ref = Some e /\ alive e = true /\
    _player_attack use_special s = Ok tt s' /\
    let s1 := struck_one use_special ref i s in
    resolved "Enemy defeated!" (attack_summary (strike_damage use_special s))
      s1 (if enemy_is_defeated ref s1 then retargeted s1 else s1) s'.
Proof.
  intros [Hp Hsp Hes Hpos] Hne Hsingle i.
  assert (Hn : (0 < length (alive_of (enemies s)))%nat).
  { fields. destruct (alive_of (enemies s)); [congruence | cbn; lia]. }
  pose proof (clamp_index_range (target_index s) _ Hn) as Hi. fold i in Hi.
  destruct (lookup_lt_is_Some_2 (alive_from 0 (enemies s)) (Z.to_nat i)) as [ref Href].
  { rewrite alive_from_length. fields. lia. }
  destruct (alive_from_lookup _ _ _ _ Href) as (e & _ & He & Halive & _).
  rewrite Nat.sub_0_r in He.
  destruct (lookup_lt_is_Some_2 (enemy_positions s) (Z.to_nat i)) as [p Hpp].
  { fields. lia. }
  exists ref, e.
  unfold _player_attack. unfold bind at 1. unfold get at 1.
  assert (Hguard : use_special && (Creature.special_uses (player s) <=? 0) = false).
  { destruct use_special; [| reflexivity]. destruct (Hsingle eq_refl) as [Hu _].
    cbn. apply Z.leb_gt, Hu. }
  rewrite Hguard.
  assert (Harea : use_special && (1 <? Z.of_nat (length (_alive_enemies s))) = false).
  { destruct use_special; [| reflexivity]. destruct (Hsingle eq_refl) as [_ ->].
    reflexivity. }
  rewrite Harea.
  destruct (_alive_indices s) as [|r0 rs] eqn:Hidx.
  { fields. rewrite Hidx in Href. discriminate. }
  unfold bind at 1. unfold _get_target, bind at 1. unfold get at 1.
  rewrite Hidx. unfold bind at 1. unfold modify at 1. unfold ret at 1.
  fold i. rewrite <- Hidx.
  replace (nth (Z.to_nat i) (_alive_indices s) r0) with ref
    by (fields; rewrite nth_lookup, Href; reflexivity).
  clear Hidx r0 rs.
  assert (Hroll : exists st,
     (if use_special
      then (d <- player_roll_special_damage ;; spend_special ;; ret d)
      else player_roll_damage) (with_target_index i s)
     = Ok (strike_damage use_special s) st /\
     st = with_player (if use_special then Creature.spend_special (player s) else player s)
            (with_random (advance (random s)) (with_target_index i s))).
  { destruct use_special.
    - eexists. split; [| reflexivity].
      unfold bind at 1. unfold player_roll_special_damage, bind at 1. unfold get at 1.
      rewrite (draw_eq _ _ _ _ (roll_special_damage_ok _ _ Hp Hsp)).
      reflexivity.
    - eexists. split; [| reflexivity].
      unfold player_roll_damage, bind at 1. unfold get at 1.
      rewrite (draw_eq _ _ _ _ (roll_damage_ok _ _ Hp)).
      destruct s; reflexivity. }
  destruct Hroll as (st & Hroll & Hst).
  unfold bind at 1. rewrite Hroll.
  unfold bind at 1. unfold enemy_take_damage, modify at 1.
  unfold bind at 1. unfold position_at, bind at 1. unfold get at 1.
  assert (Hposst : enemy_positions st = enemy_positions s) by (subst st; reflexivity).
  assert (Henst : enemies st = enemies s) by (subst st; reflexivity).
  fields. rewrite Hposst, Hpp. unfold ret at 1.
  unfold bind at 1. unfold hit_popup, _add_popup, modify at 1.
  unfold bind at 1. unfold get at 1.
  set (d := strike_damage use_special s) in *.
  set (s1 := with_popups _ _).
  assert (Hs1 : s1 = struck_one use_special ref i s).
  { subst s1 st. unfold struck_one. fold d. fields.
    rewrite (nth_lookup_Some _ _ _ _ Hpp). reflexivity. }
  cbv zeta. rewrite <- Hs1.
  assert (He1 : enemies s1 = alter (Creature.take_damage d) ref (enemies s))
    by (subst s1; fields; rewrite Henst; reflexivity).
  assert (Hr1 : Forall rolls_ok (enemies s1))
    by (rewrite He1; apply Forall_rolls_ok_alter, Hes).
  assert (Ht1 : enemies s1 !! ref = Some (Creature.take_damage d e))
    by (rewrite He1, list_lookup_alter_eq, He; reflexivity).
  unfold resolved, _alive_enemies.
  destruct (enemy_is_defeated ref s1) eqn:Hdef.
  - destruct (alive_of (enemies s1)) as [|a l] eqn:Ha1.
    + eexists. repeat split; eauto.
    + unfold bind at 1. unfold retarget, modify at 1.
      destruct (counterattack_run (attack_summary d) (retargeted s1)) as (s' & Hrun & Hpost).
      * exact Hr1.
      * change (_alive_enemies (retargeted s1)) with (alive_of (enemies s1)).
        rewrite Ha1. discriminate.
      * exists s'. repeat split; auto.
  - assert (Ha1 : alive_of (enemies s1) <> []).
    { apply (alive_of_nonempty _ ref _ Ht1).
      unfold enemy_is_defeated in Hdef. rewrite Ht1 in Hdef.
      unfold alive. rewrite Hdef. reflexivity. }
    destruct (counterattack_run (attack_summary d) s1 Hr1 Ha1) as (s' & Hrun & Hpost).
    exists s'. repeat split; auto.
    destruct (alive_of (enemies s1)); [congruence | assumption].
Qed.
(** *** Every attack: strike, preparation, resolution *)

Lemma no_enemy_attack_run use_special s :
  _alive_enemies s = [] ->
  (use_special = true -> 0 < Creature.special_uses (player s)) ->
  _player_attack use_special s =
  Ok tt (with_message "Enemy defeated!" (with_outcome (Some WIN) s)).
Proof.
  intros Hnil Huses.
  unfold _player_attack. unfold bind at 1. unfold get at 1.
  replace (use_special && (Creature.special_uses (player s) <=? 0)) with false.
  - apply (alive_from_nil 0) in Hnil. fields. rewrite Hnil. reflexivity.
  - destruct use_special; [| reflexivity]. cbn. symmetry. apply Z.leb_gt. auto.
Qed.

Lemma retargeted_prepared s1 : prepared s1 (retargeted s1).
Proof.
  unfold prepared. do 5 (split; [reflexivity |]). intros Hne. split.
  - intros _. unfold retargeted, _recompute_enemy_positions, clamp_index. fields.
    destruct (alive_of (enemies s1)); [congruence | cbn [length]; lia].
  - unfold retargeted, _recompute_enemy_positions. fields.
    rewrite length_map, length_seq. lia.
Qed.

Lemma hit_popups_color ds ps :
  Forall (fun p => color p = hit_color) (zip_with hit_popup_of ds ps).
Proof.
  revert ps. induction ds as [|d ds IH]; intros [|p ps]; cbn; constructor; auto.
Qed.

Lemma attack_run use_special s :
  wf s -> (use_special = true -> 0 < Creature.special_uses (player s)) ->
  exists hits s1 s2 s' win_message summary,
    _player_attack use_special s = Ok tt s' /\
    struck use_special hits s s1 /\ prepared s1 s2 /\
    resolved win_message summary s1 s2 s'.
Proof.
  intros Hwf Huses.
  destruct (_alive_enemies s) as [|a l] eqn:Hal.
  { exists [], s, s, (with_message "Enemy defeated!" (with_outcome (Some WIN) s)),
      "Enemy defeated!"%string, (fun _ => ""%string).
    split; [apply no_enemy_attack_run; auto |].
    destruct Hwf.
    unfold struck, prepared, resolved, spends. rewrite Hal, andb_false_r, app_nil_r.
    split; [| split; [| reflexivity]].
    - do 2 (split; [reflexivity |]). split; [constructor |]. auto.
    - do 5 (split; [reflexivity |]). congruence. }
  destruct (use_special && (1 <? Z.of_nat (length (_alive_enemies s)))) eqn:Harea.
  - apply andb_true_iff in Harea as [-> Hmany%Z.ltb_lt].
    destruct (area_attack_run s Hwf (Huses eq_refl) ltac:(lia)) as (s' & Hrun & Hres).
    do 6 eexists. split; [exact Hrun |]. split; [| split; [| exact Hres]].
    + destruct Hwf. unfold struck, spends. rewrite Hal. cbn [andb].
      do 2 (split; [reflexivity |]). split; [apply hit_popups_color |].
      split; [| split; reflexivity].
      cbn. apply hit_alive_rolls_ok. assumption.
    + apply retargeted_prepared.
  - assert (Hsingle : use_special = true ->
             0 < Creature.special_uses (player s) /\ length (_alive_enemies s) = 1%nat).
    { intros ->. split; [auto |]. cbn in Harea. apply Z.ltb_ge in Harea.
      rewrite Hal in *. cbn [length] in *. lia. }
    destruct (single_attack_run use_special s Hwf ltac:(rewrite Hal; discriminate) Hsingle)
      as (ref & e & s' & Href & He & Halive & Hrun & Hres).
    cbv zeta in Hres.
    set (i := clamp_index (target_index s) (length (_alive_enemies s))) in *.
    set (s1 := struck_one use_special ref i s) in *.
    exists [hit_popup_of (strike_damage use_special s)
                         (nth (Z.to_nat i) (enemy_positions s) (0, 0))],
      s1, (if enemy_is_defeated ref s1 then retargeted s1 else s1), s'.
    do 2 eexists. split; [exact Hrun |]. split; [| split; [| exact Hres]].
    + destruct Hwf. unfold struck, spends. rewrite Hal.
      replace (use_special && true) with use_special by (destruct use_special; reflexivity).
      split; [destruct use_special; reflexivity |].
      split; [reflexivity |]. split; [repeat constructor |].
      split; [| split; reflexivity].
      cbn. apply Forall_rolls_ok_alter. assumption.
    + destruct (enemy_is_defeated ref s1) eqn:Hdef; [apply retargeted_prepared |].
      assert (Hcount : length (_alive_enemies s1) = length (_alive_enemies s)).
      { change (_alive_enemies s1)
          with (alive_of (alter (Creature.take_damage (strike_damage use_special s)) ref
                                (enemies s))).
        apply (alive_of_alter_alive _ _ _ _ He Halive).
        unfold enemy_is_defeated in Hdef.
        change (enemies s1)
          with (alter (Creature.take_damage (strike_damage use_special s)) ref (enemies s))
          in Hdef.
        rewrite list_lookup_alter_eq, He in Hdef. cbn [fmap option_fmap option_map] in Hdef.
        unfold alive. rewrite Hdef. reflexivity. }
      unfold prepared. do 5 (split; [reflexivity |]). intros _. split.
      * intros _. rewrite Hcount. change (target_index s1) with i.
        apply clamp_index_range. rewrite Hal. cbn. lia.
      * rewrite Hcount. destruct Hwf. assumption.
Qed.
(** *** Events *)

Lemma handle_event_decided event s :
  outcome s <> None -> handle_event event s = Ok tt s.
Proof.
  intros H. unfold handle_event, bind, get.
  destruct (outcome s); [reflexivity | congruence].
Qed.

Lemma buttons_perform event s : buttons event s = perform (button_intent s event) s.
Proof.
  unfold buttons, button_intent, bind, get.
  destruct (is_clicked (attack_rect (layout s)) event); [reflexivity |].
  destruct (is_clicked (special_rect (layout s)) event); reflexivity.
Qed.

Lemma handle_event_perform event s :
  outcome s = None -> handle_event event s = perform (intent_of s event) s.
Proof.
  intros H. unfold handle_event, bind at 1. unfold get at 1. rewrite H.
  destruct event as [[]|button pos|]; try reflexivity.
  unfold intent_of. destruct (button =? 1); [| apply buttons_perform].
  destruct (_enemy_at_pos s pos); [reflexivity | apply buttons_perform].
Qed.

Lemma special_requested_refused s :
  uses s <= 0 -> special_requested s = Ok tt (with_message "No special uses left!" s).
Proof.
  intros H. unfold special_requested, bind, get.
  destruct (Z.ltb_spec 0 (Creature.special_uses (player s))); [unfold uses in H; lia |].
  reflexivity.
Qed.

Lemma special_requested_accepted s :
  0 < uses s -> special_requested s = _player_attack true s.
Proof.
  intros H. unfold special_requested, bind, get.
  destruct (Z.ltb_spec 0 (Creature.special_uses (player s))); [| unfold uses in H; lia].
  reflexivity.
Qed.

(** A click selects one of the alive enemies that have a position. *)
Lemma first_hit_range lay mouse_pos pairs : forall idx clicked,
  first_hit lay mouse_pos idx pairs = Some clicked ->
  idx <= clicked < idx + Z.of_nat (length pairs).
Proof.
  induction pairs as [|[c p] pairs IH]; intros idx clicked H; [discriminate |].
  cbn [first_hit length] in *.
  destruct (collidepoint _ mouse_pos).
  - injection H as <-. lia.
  - apply IH in H. lia.
Qed.

Lemma _enemy_at_pos_range s mouse_pos clicked :
  _enemy_at_pos s mouse_pos = Some clicked ->
  0 <= clicked < Z.of_nat (length (_alive_enemies s)).
Proof.
  unfold _enemy_at_pos. intros H%first_hit_range.
  rewrite length_zip_with in H. lia.
Qed.

Lemma intent_select_range s event index :
  intent_of s event = SelectTargetAt index ->
  0 <= index < Z.of_nat (length (_alive_enemies s)).
Proof.
  assert (Hb : forall ev, button_intent s ev <> SelectTargetAt index).
  { intros ev. unfold button_intent.
    destruct (is_clicked _ ev); [discriminate |].
    destruct (is_clicked _ ev); discriminate. }
  destruct event as [[]|button pos|]; cbn; try discriminate.
  destruct (button =? 1); [| intros H; destruct (Hb _ H)].
  destruct (_enemy_at_pos s pos) eqn:Hat; [| intros H; destruct (Hb _ H)].
  intros [= <-]. eauto using _enemy_at_pos_range.
Qed.

(** *** What an attack leaves behind *)

Lemma rolls_ok_same c c' :
  Creature.damage_min c' = Creature.damage_min c ->
  Creature.damage_max c' = Creature.damage_max c ->
  rolls_ok c -> rolls_ok c'.
Proof. unfold rolls_ok. intros -> ->. auto. Qed.

Lemma special_ok_same c c' :
  Creature.damage_min c' = Creature.damage_min c ->
  Creature.damage_max c' = Creature.damage_max c ->
  special_ok c -> special_ok c'.
Proof. unfold special_ok. intros -> ->. auto. Qed.

Lemma attack_facts use_special s :
  wf s -> (use_special = true -> 0 < uses s) ->
  exists s' hits,
    _player_attack use_special s = Ok tt s' /\
    attacked use_special hits s s' /\ wf s' /\ target_ok s'.
Proof.
  intros Hwf Huses.
  destruct (attack_run use_special s Hwf Huses)
    as (hits & s1 & s2 & s' & wmsg & summary & Hrun & Hstruck & Hprep & Hres).
  exists s', hits. split; [exact Hrun |].
  destruct Hstruck as (Hp1 & Hpop1 & Hcol & Hr1 & Ho1 & Hl1).
  destruct Hprep as (Hp2 & He2 & Ho2 & Hpop2 & Hl2 & Hready).
  destruct Hwf as [Hp Hsp Hes Hpos].
  assert (Hh1 : Creature.current_health (player s1) = Creature.current_health (player s))
    by (rewrite Hp1; destruct (spends use_special s); reflexivity).
  assert (Hu1 : uses s1 = uses s - (if spends use_special s then 1 else 0)).
  { unfold uses. rewrite Hp1. destruct (spends use_special s); cbn; lia. }
  assert (Hmin1 : Creature.damage_min (player s1) = Creature.damage_min (player s))
    by (rewrite Hp1; destruct (spends use_special s); reflexivity).
  assert (Hmax1 : Creature.damage_max (player s1) = Creature.damage_max (player s))
    by (rewrite Hp1; destruct (spends use_special s); reflexivity).
  unfold resolved in Hres. unfold attacked.
  destruct (_alive_enemies s1) as [|a l] eqn:Hal1.
  - subst s'. fields. rewrite Hal1.
    split; [| split].
    + split; [assumption |]. split; [exact Hu1 |]. auto.
    + split; fields; eauto using rolls_ok_same, special_ok_same.
      rewrite Hal1. cbn. lia.
    + intros Hne. fields. congruence.
  - destruct Hready as [Htarget Hpositions]; [discriminate |].
    destruct Hres as (counter & enemy_damage & Hin & Hrange & Hp' & He' & Ht' & Hl' & Hps'
                      & Hpop' & Ho' & _).
    assert (Hal' : _alive_enemies s' = _alive_enemies s2)
      by (unfold _alive_enemies; rewrite He'; reflexivity).
    assert (Hal2 : _alive_enemies s2 = a :: l)
      by (unfold _alive_enemies; rewrite He2; exact Hal1).
    rewrite Hal', Hal2. rewrite <- Hal2, <- Hal'.
    split; [| split].
    + split; [assumption |]. split.
      { unfold uses. rewrite Hp', Hp2. exact Hu1. }
      exists counter, enemy_damage. rewrite Hal'.
      split; [assumption |]. split; [assumption |].
      split; [rewrite Hp', Hp2; cbn; rewrite Hh1; reflexivity |].
      split; [rewrite Hpop', Hpop2, Hpop1, Hl2, Hl1, <- app_assoc; reflexivity |].
      rewrite Ho', Ho2, Ho1. reflexivity.
    + split.
      * apply (rolls_ok_same (player s)); [rewrite Hp', Hp2 .. |]; assumption.
      * apply (special_ok_same (player s)); [rewrite Hp', Hp2 .. |]; assumption.
      * rewrite He', He2. assumption.
      * rewrite Hal', Hps'. assumption.
    + unfold target_ok. rewrite Hal', Ht'. exact Htarget.
Qed.

(** *** Every event *)

Lemma wf_same s s' :
  player s' = player s -> enemies s' = enemies s ->
  enemy_positions s' = enemy_positions s -> wf s -> wf s'.
Proof.
  intros Hp He Hpos [? ? ? ?].
  split; unfold _alive_enemies in *; rewrite ?Hp, ?He, ?Hpos; assumption.
Qed.

Lemma target_ok_cycle step s :
  target_ok (match _alive_enemies s with
             | [] => s
             | _ => with_target_index
                      ((target_index s + step) mod Z.of_nat (length (_alive_enemies s))) s
             end).
Proof.
  unfold target_ok. destruct (_alive_enemies s) as [|a l] eqn:Hal.
  - rewrite Hal. congruence.
  - intros _. fields. rewrite Hal. apply Z.mod_pos_bound. cbn [length]. lia.
Qed.

Lemma cycle_target_run step s :
  cycle_target step s =
  Ok tt (match _alive_enemies s with
         | [] => s
         | _ => with_target_index
                  ((target_index s + step) mod Z.of_nat (length (_alive_enemies s))) s
         end).
Proof.
  unfold cycle_target, modify. destruct (_alive_enemies s); reflexivity.
Qed.

Lemma handle_event_run event s :
  wf s ->
  exists s', handle_event event s = Ok tt s' /\ wf s' /\
             (target_ok s -> target_ok s') /\
             (outcome s = None -> acts s (intent_of s event) -> target_ok s').
Proof.
  intros Hwf. destruct (outcome s) as [o|] eqn:Ho.
  { exists s. rewrite handle_event_decided by congruence.
    split; [reflexivity |]. split; [assumption |]. split; [auto | discriminate]. }
  rewrite handle_event_perform by assumption.
  destruct (intent_of s event) as [step|index| | |] eqn:Hi; cbn [perform acts].
  - rewrite cycle_target_run. eexists. split; [reflexivity |].
    split; [| split; intros; apply target_ok_cycle].
    destruct (_alive_enemies s); [assumption |].
    apply (wf_same s); auto.
  - apply intent_select_range in Hi.
    exists (with_target_index index s). split; [reflexivity |].
    split; [apply (wf_same s); auto |].
    split; intros; intros _; exact Hi.
  - destruct (attack_facts false s Hwf) as (s' & hits & Hrun & _ & Hwf' & Ht);
      [discriminate |].
    exists s'. auto.
  - destruct (Z.lt_ge_cases 0 (uses s)) as [Hu|Hu].
    + rewrite special_requested_accepted by assumption.
      destruct (attack_facts true s Hwf) as (s' & hits & Hrun & _ & Hwf' & Ht); [auto |].
      exists s'. auto.
    + rewrite special_requested_refused by assumption.
      eexists. split; [reflexivity |].
      split; [apply (wf_same s); auto |].
      split; [auto | lia].
  - exists s. split; [reflexivity |]. split; [assumption |]. split; [auto | contradiction].
Qed.

(** *** The enemies after an area attack, enemy by enemy *)




(** *** The special uses, along every path *)


























(** *** Construction *)

Lemma init_run player enemy lay g :
  __init__ player enemy lay g = Ok tt (init player enemy lay g).
Proof. reflexivity. Qed.

Lemma init_wf player enemy lay g :
  rolls_ok player -> special_ok player ->
  Forall rolls_ok (match enemy with Several cs => cs | Single c => [c] end) ->
  wf (init player enemy lay g) /\ target_ok (init player enemy lay g) /\
  outcome (init player enemy lay g) = None.
Proof.
  intros Hp Hsp Hes. split; [| split; [| reflexivity]].
  - split; try assumption.
    unfold init, __init__, modify, final, _recompute_enemy_positions. fields.
    rewrite length_map, length_seq. lia.
  - unfold target_ok, init, __init__, modify, final, _recompute_enemy_positions. fields.
    destruct (alive_of _); [congruence | cbn [length]; lia].
Qed.

(** No special roll of a creature raises when its damage range lies in
    [0, 2^40). *)
Lemma special_ok_of_range c :
  0 <= Creature.damage_min c -> Creature.damage_max c < 2 ^ 40 -> special_ok c.
Proof.
  intros Hmin Hmax base Hb.
  rewrite Float64Facts.special_of_roll_nonneg by lia. eauto.
Qed.

Lemma fighter_special_ok health special : special_ok (Scenario.fighter health 10 10 special).
Proof. apply special_ok_of_range; cbn; lia. Qed.



Lemma brawl_wf : wf Scenario.brawl.
Proof.
  apply init_wf; [cbv; discriminate | apply fighter_special_ok |].
  repeat constructor; cbv; discriminate.
Qed.

(** *** The scenarios of the specification, run on the model *)

(** Scenario A: a basic attack that defeats the only enemy wins and is not
    answered. *)
Example scenario_basic_finishing_blow :
  let s' := run [KEYDOWN K_RETURN] Scenario.duel in
  outcome s' = Some WIN /\
  List.map Creature.current_health (enemies s') = [0] /\
  Creature.current_health (player s') = 100 /\
  List.map color (popups s') = [hit_color].
Proof. vm_compute. auto. Qed.

(** Scenario B: a special attack without a use left. *)
Example scenario_no_special_left :
  let s' := run [KEYDOWN K_s] Scenario.weary in
  outcome s' = None /\
  message s' = "No special uses left!"%string /\
  List.map Creature.current_health (enemies s') = [50; 50] /\
  Creature.current_health (player s') = 100 /\
  popups s' = [].
Proof. vm_compute. auto. Qed.

(** Scenario C: a special attack that defeats three enemies at once. *)
Example scenario_special_defeats_all :
  let s' := run [KEYDOWN K_s] Scenario.melee in
  outcome s' = Some WIN /\
  uses s' = 0 /\
  _alive_enemies s' = [] /\
  List.map color (popups s') = [hit_color; hit_color; hit_color].
Proof. vm_compute. auto. Qed.

(** Scenario D: cycling to the next target wraps around. *)
Example scenario_cycling_wraps :
  target_index (run [KEYDOWN K_RIGHT] Scenario.weary) = 1 /\
  target_index (run [KEYDOWN K_RIGHT; KEYDOWN K_d] Scenario.weary) = 0 /\
  target_index (run [KEYDOWN K_LEFT] Scenario.weary) = 1.
Proof. vm_compute. auto. Qed.

(** A special attack that leaves an enemy alive is answered once. *)
Example scenario_special_with_survivor :
  let s' := run [KEYDOWN K_s] Scenario.brawl in
  outcome s' = None /\
  List.map Creature.current_health (enemies s') = [-14; 31; -14] /\
  Creature.current_health (player s') = 96 /\
  message s' = "Special hit all enemies for 57 total. Enemy hit back for 4."%string /\
  List.map color (popups s') = [hit_color; hit_color; hit_color; counter_color].
Proof. vm_compute. auto. Qed.

End BattleFacts.

(** * The properties of the specification *)

Module CreatureSpec.
Import Creature.

(** C10. [configure_stats] recomputes the health and the damage range only:
    the special uses, their maximum, the level and the element are those
    of the creature before the call, so that spent special uses come back
    by [reset_after_battle] alone, which sets them to their maximum. *)
Theorem configure_stats_frame
    (base_hp hp_per_level base_dmg_min base_dmg_max dmg_per_level : Z) (c : t) :
  let c' := configure_stats base_hp hp_per_level base_dmg_min base_dmg_max dmg_per_level c in
  special_uses c' = special_uses c /\
  max_special_uses c' = max_special_uses c /\
  level c' = level c /\
  element c' = element c /\
  special_uses (reset_after_battle c') = max_special_uses c.
Proof. cbn. auto. Qed.

(** C8, as the code has it. A roll that is not negative (and below 2^40)
    gives the special damage floor(r * 135 / 100) + 6: the binary64 product
    and sum and the truncation of [int(base * 1.35 + 6)] lose nothing there.
    So does [roll_special_damage] for a creature whose damage range is not
    negative: it consumes one basic roll [r] of the range and returns that
    value. *)
Theorem special_damage_of_nonnegative_roll (c : t) (g : Random.t) :
  0 <= damage_min c -> damage_min c <= damage_max c -> damage_max c < 2 ^ 40 ->
  (forall r, damage_min c <= r <= damage_max c ->
             special_of_roll r = Some (r * 135 / 100 + 6)) /\
  exists r,
    damage_min c <= r <= damage_max c /\
    roll_damage c g = Py.Ok r (Random.advance g) /\
    roll_special_damage c g = Py.Ok (r * 135 / 100 + 6) (Random.advance g).
Proof.
  intros Hmin Hrange Hmax.
  assert (Hall : forall r, damage_min c <= r <= damage_max c ->
                           special_of_roll r = Some (r * 135 / 100 + 6)).
  { intros r Hr. apply Float64Facts.special_of_roll_nonneg. lia. }
  split; [exact Hall |].
  pose proof (RandomFacts.randint_range (damage_min c) (damage_max c) (Random.next g) Hrange)
    as Hr.
  exists (damage_min c + Random.next g mod (damage_max c - damage_min c + 1)).
  split; [exact Hr |].
  unfold roll_special_damage, Py.bind, roll_damage.
  rewrite RandomFacts.randint_ok by assumption.
  split; [reflexivity |]. rewrite (Hall _ Hr). reflexivity.
Qed.

Lemma special_damage_of_nonnegative_roll_witness :
  special_of_roll 10 = Some (10 * 135 / 100 + 6) /\
  roll_special_damage Scenario.hero Scenario.dice = Py.Ok 19 (Random.advance Scenario.dice).
Proof.
  destruct (special_damage_of_nonnegative_roll Scenario.hero Scenario.dice)
    as (Hall & r & Hr & _ & Hroll).
  - cbn. lia.
  - cbn. lia.
  - cbn. lia.
  - cbn in Hr. assert (r = 10) by lia. subst r.
    split; [apply Hall; cbn; lia | exact Hroll].
Defined.

(** C8, as stated, fails on a negative roll: [int] truncates the sum
    toward zero. For the roll -5 the code returns int(-0.75) = 0, and
    floor(-5 * 135 / 100) + 6 is -1. *)
Lemma special_damage_of_negative_roll :
  roll_damage Scenario.imp Scenario.dice = Py.Ok (-5) (Random.advance Scenario.dice) /\
  roll_special_damage Scenario.imp Scenario.dice = Py.Ok 0 (Random.advance Scenario.dice) /\
  special_of_roll (-5) <> Some ((-5) * 135 / 100 + 6).
Proof.
  split; [reflexivity |]. split; [reflexivity |]. vm_compute. discriminate.
Qed.

End CreatureSpec.

Module BattleSpec.
Import Py Battle BattleFacts.

(** C1. When the outcome of a battle is decided, [handle_event] returns
    without changing anything, whatever the event: the outcome, the
    message, the health of every creature and the target index are those of
    before. *)
Theorem decided_battle_ignores_events (s : t) (event : Event) :
  outcome s <> None -> handle_event event s = Ok tt s.
Proof. apply handle_event_decided. Qed.




(** C6. A special attack requested on an undecided battle whose player has
    no special use left changes the message, which becomes
    "No special uses left!", and nothing else: no health, not the special
    uses, not the target index, not the outcome. *)
Theorem special_without_uses_is_refused (s : t) (event : Event) :
  outcome s = None -> intent_of s event = SpecialAttack -> uses s <= 0 ->
  handle_event event s = Ok tt (with_message "No special uses left!" s).
Proof.
  intros Ho Hi Hu. rewrite handle_event_perform, Hi by assumption.
  apply special_requested_refused, Hu.
Qed.


Lemma decided_battle_ignores_events_witness :
  outcome Scenario.won <> None /\
  handle_event (KEYDOWN K_RETURN) Scenario.won = Ok tt Scenario.won.
Proof.
  split; [discriminate |].
  apply (decided_battle_ignores_events Scenario.won (KEYDOWN K_RETURN)). discriminate.
Defined.




Lemma special_without_uses_is_refused_witness :
  handle_event (KEYDOWN K_x) Scenario.weary =
  Ok tt (with_message "No special uses left!" Scenario.weary).
Proof.
  apply (special_without_uses_is_refused Scenario.weary (KEYDOWN K_x)).
  - reflexivity.
  - reflexivity.
  - vm_compute. discriminate.
Defined.


(** C7, as the code has it. The construction does not reject an empty
    list of enemies: it returns an undecided battle without enemies, with
    target index 0 and a message of its own, and the battle is played: the
    first attack decides it as a victory. *)
Theorem empty_battle_is_tolerated (player : Creature.t) (lay : Layout) (g : Random.t) :
  exists s,
    __init__ player (Several []) lay g = Ok tt s /\
    enemies s = [] /\ outcome s = None /\ target_index s = 0 /\
    message s = "An eerie silence fills the battlefield..."%string /\
    handle_event (KEYDOWN K_RETURN) s =
    Ok tt (with_message "Enemy defeated!" (with_outcome (Some WIN) s)).
Proof. eexists. split; [reflexivity |]. repeat split. Qed.

(** C7, as stated, fails: the construction of a battle without enemies
    does not raise. *)
Lemma empty_battle_does_not_fail :
  ~ exists e s, __init__ Scenario.hero (Several []) Scenario.screen Scenario.dice = Raise e s.
Proof. intros (e & s & H). discriminate H. Qed.




End BattleSpec.

(** * Further properties of the code *)

Module CreatureExtra.
Import Creature.

(** X2. [reset_after_battle] gives full health and all the special uses
    back, changes nothing else, and doing it twice is doing it once. The
    creature is then alive exactly when its maximal health is positive: one
    with [max_health <= 0] is defeated even right after the reset. *)
Theorem reset_after_battle_restores (c : t) :
  let c' := reset_after_battle c in
  current_health c' = max_health c /\
  special_uses c' = max_special_uses c /\
  (is_defeated c' = false <-> 0 < max_health c) /\
  reset_after_battle c' = c' /\
  (element c', level c', max_health c', damage_min c', damage_max c', max_special_uses c')
  = (element c, level c, max_health c, damage_min c, damage_max c, max_special_uses c).
Proof.
  cbn. repeat split; try reflexivity; unfold is_defeated; cbn.
  - intros H. apply Z.leb_gt, H.
  - intros H. apply Z.leb_gt, H.
Qed.

(** X3. [level_up] changes the level only: health and damage stay those of
    the old level until [configure_stats] is called again. Configuring after
    a level-up, as the game does after a victory, raises the maximal health by
    [hp_per_level] and both damage bounds by [dmg_per_level] over configuring
    before it, and leaves the special uses alone. *)
Theorem level_up_then_configure
    (base_hp hp_per_level base_dmg_min base_dmg_max dmg_per_level : Z) (c : t) :
  let configure := configure_stats base_hp hp_per_level base_dmg_min base_dmg_max
                                   dmg_per_level in
  (level (level_up c) = level c + 1 /\
   (max_health (level_up c), current_health (level_up c),
    damage_min (level_up c), damage_max (level_up c))
   = (max_health c, current_health c, damage_min c, damage_max c)) /\
  max_health (configure (level_up c)) = max_health (configure c) + hp_per_level /\
  damage_min (configure (level_up c)) = damage_min (configure c) + dmg_per_level /\
  damage_max (configure (level_up c)) = damage_max (configure c) + dmg_per_level /\
  special_uses (configure (level_up c)) = special_uses c.
Proof. cbn. repeat split; lia. Qed.

(** X4. After [configure_stats] the creature is at full health, and the
    width of its damage range is that of the base range whatever the level:
    its rolls do not raise exactly when [base_dmg_min <= base_dmg_max]. It is
    alive exactly when the configured health is positive. *)
Theorem configure_stats_range
    (base_hp hp_per_level base_dmg_min base_dmg_max dmg_per_level : Z) (c : t) :
  let c' := configure_stats base_hp hp_per_level base_dmg_min base_dmg_max dmg_per_level c in
  current_health c' = max_health c' /\
  damage_max c' - damage_min c' = base_dmg_max - base_dmg_min /\
  (Battle.rolls_ok c' <-> base_dmg_min <= base_dmg_max) /\
  (is_defeated c' = false <-> 0 < base_hp + level c * hp_per_level).
Proof.
  cbn. unfold Battle.rolls_ok, is_defeated. cbn.
  split; [reflexivity |]. split; [lia |]. split; [lia |].
  rewrite Z.leb_gt. reflexivity.
Qed.

(** X5. For rolls from 0 up to 2^40 the special damage is at least the
    roll plus 6, at most one and a half times the roll plus 6, and it does
    not decrease when the roll grows. *)
Theorem special_damage_exceeds_roll (r r' : Z) :
  0 <= r -> r <= r' -> r' < 2 ^ 40 ->
  exists d d',
    special_of_roll r = Some d /\ special_of_roll r' = Some d' /\
    r + 6 <= d /\ 2 * d <= 3 * r + 12 /\ d <= d'.
Proof.
  intros H0 Hle Hlt.
  exists (r * 135 / 100 + 6), (r' * 135 / 100 + 6).
  rewrite !Float64Facts.special_of_roll_nonneg by lia.
  pose proof (Z.mul_div_le (r * 135) 100 ltac:(lia)).
  pose proof (Z.mul_succ_div_gt (r * 135) 100 ltac:(lia)).
  assert (r * 135 / 100 <= r' * 135 / 100) by (apply Z.div_le_mono; lia).
  repeat split; lia.
Qed.

Lemma special_damage_exceeds_roll_witness :
  exists d d',
    special_of_roll 12 = Some d /\ special_of_roll 18 = Some d' /\
    12 + 6 <= d /\ 2 * d <= 3 * 12 + 12 /\ d <= d'.
Proof. apply (special_damage_exceeds_roll 12 18); lia. Defined.

(** X6. Damage accumulates without a floor at zero: two hits are one hit of
    the sum, and a defeated creature stays defeated under any damage that is
    not negative. *)
Theorem take_damage_accumulates (a b : Z) (c : t) :
  take_damage b (take_damage a c) = take_damage (a + b) c /\
  current_health (take_damage b (take_damage a c)) = current_health c - a - b /\
  (0 <= a -> is_defeated c = true -> is_defeated (take_damage a c) = true).
Proof.
  split; [| split].
  - unfold take_damage. cbn. f_equal. lia.
  - reflexivity.
  - unfold is_defeated. cbn. rewrite !Z.leb_le. lia.
Qed.

Lemma take_damage_accumulates_witness :
  is_defeated (take_damage 3 (take_damage 1 (init "x" 1))) = true.
Proof.
  apply (take_damage_accumulates 3 0 (take_damage 1 (init "x" 1))); [lia | reflexivity].
Defined.

End CreatureExtra.

Module BattleExtraFacts.
Import Py PyFacts Random RandomFacts Battle BattleFacts View.

(** *** The sprite a click falls on *)

Lemma first_hit_spec lay mouse_pos : forall cs positions idx,
  match first_hit lay mouse_pos idx (zip cs positions) with
  | Some k =>
      exists i p, k = idx + Z.of_nat i /\ (i < length cs)%nat /\
                  positions !! i = Some p /\
                  collidepoint (sprite_rect lay p) mouse_pos = true /\
                  forall j q, (j < i)%nat -> positions !! j = Some q ->
                              collidepoint (sprite_rect lay q) mouse_pos = false
  | None =>
      forall i p, (i < length cs)%nat -> positions !! i = Some p ->
                  collidepoint (sprite_rect lay p) mouse_pos = false
  end.
Proof.
  induction cs as [|a cs IH]; intros positions idx.
  - cbn. intros i p Hi. inversion Hi.
  - destruct positions as [|p0 positions].
    + cbn. intros i p _ Hp. discriminate.
    + cbn [zip zip_with first_hit].
      change {| rect_x := p0.1; rect_y := p0.2;
                rect_w := (sprite_size lay).1; rect_h := (sprite_size lay).2 |}
        with (sprite_rect lay p0).
      destruct (collidepoint (sprite_rect lay p0) mouse_pos) eqn:Hc.
      * exists 0%nat, p0. cbn [length lookup list_lookup].
        split; [lia |]. split; [lia |]. split; [reflexivity |]. split; [exact Hc |].
        intros j q Hj. lia.
      * specialize (IH positions (idx + 1)).
        change (zip_with pair cs positions) with (zip cs positions).
        destruct (first_hit lay mouse_pos (idx + 1) (zip cs positions)) as [k|].
        -- destruct IH as (i & p & -> & Hi & Hp & Hcp & Hfirst).
           exists (S i), p. cbn [length lookup list_lookup].
           split; [lia |]. split; [lia |]. split; [exact Hp |]. split; [exact Hcp |].
           intros [|j] q Hj Hq; cbn in Hq; [congruence |].
           apply (Hfirst j); [lia | assumption].
        -- intros [|i] p Hi Hp; cbn in Hp; [congruence |].
           apply (IH i); [cbn in Hi; lia | assumption].
Qed.

Lemma enemy_at_pos_spec s mouse_pos :
  match _enemy_at_pos s mouse_pos with
  | Some k =>
      exists i p, k = Z.of_nat i /\ (i < length (_alive_enemies s))%nat /\
                  enemy_positions s !! i = Some p /\
                  collidepoint (sprite_rect (layout s) p) mouse_pos = true /\
                  forall j q, (j < i)%nat -> enemy_positions s !! j = Some q ->
                              collidepoint (sprite_rect (layout s) q) mouse_pos = false
  | None =>
      forall i p, (i < length (_alive_enemies s))%nat -> enemy_positions s !! i = Some p ->
                  collidepoint (sprite_rect (layout s) p) mouse_pos = false
  end.
Proof.
  unfold _enemy_at_pos.
  pose proof (first_hit_spec (layout s) mouse_pos (_alive_enemies s) (enemy_positions s) 0)
    as H.
  destruct (first_hit _ _ _ _); [| exact H].
  destruct H as (i & p & -> & H). exists i, p. split; [lia | exact H].
Qed.

(** *** The positions of the sprites *)

Lemma recomputed_positions_lookup s i :
  let n := Z.max 1 (Z.of_nat (length (_alive_enemies s))) in
  let lay := layout s in
  let start_x := screen_width lay - margin lay
                 - (n * (sprite_size lay).1 + (n - 1) * pad lay) in
  enemy_positions (_recompute_enemy_positions s) !! i =
  if decide (Z.of_nat i < n)
  then Some (start_x + Z.of_nat i * ((sprite_size lay).1 + pad lay), row_y lay)
  else None.
Proof.
  intros n lay start_x. unfold _recompute_enemy_positions. fields.
  fold lay n. fold start_x.
  rewrite list_lookup_fmap.
  destruct (decide (Z.of_nat i < n)) as [Hlt|Hge].
  - rewrite lookup_seq_lt by lia. reflexivity.
  - rewrite lookup_seq_ge by lia. reflexivity.
Qed.

(** *** The alive enemies, in order *)

Lemma alive_from_increasing es : forall idx k k' r r',
  (k < k')%nat -> alive_from idx es !! k = Some r -> alive_from idx es !! k' = Some r' ->
  (r < r')%nat.
Proof.
  induction es as [|e es IH]; intros idx k k' r r' Hlt Hk Hk'; [discriminate |].
  cbn [alive_from] in Hk, Hk'. destruct (alive e).
  - destruct k' as [|k']; [lia |]. cbn in Hk'.
    destruct k as [|k]; cbn in Hk.
    + injection Hk as <-.
      destruct (alive_from_lookup _ _ _ _ Hk') as (_ & Hle & _). lia.
    + apply (IH (S idx) k k'); auto. lia.
  - apply (IH (S idx) k k'); auto.
Qed.

(** *** Cycling *)

Lemma with_target_index_same s : with_target_index (target_index s) s = s.
Proof. destruct s; reflexivity. Qed.

Lemma cycle_event_run event step s :
  outcome s = None -> intent_of s event = CycleTarget step ->
  _alive_enemies s <> [] ->
  handle_event event s =
  Ok tt (with_target_index
           ((target_index s + step) mod Z.of_nat (length (_alive_enemies s))) s).
Proof.
  intros Ho Hi Hne. rewrite handle_event_perform, Hi by assumption. cbn [perform].
  rewrite cycle_target_run. destruct (_alive_enemies s); [congruence | reflexivity].
Qed.

Lemma cycle_steps_run event (k : nat) : forall s,
  outcome s = None -> _alive_enemies s <> [] ->
  (forall s0, intent_of s0 event = CycleTarget 1) ->
  run (replicate k event) s =
  with_target_index
    (if k is O then target_index s
     else (target_index s + Z.of_nat k) mod Z.of_nat (length (_alive_enemies s))) s.
Proof.
  unfold run. induction k as [|k IH]; intros s Ho Hne Hi.
  - cbn. symmetry. apply with_target_index_same.
  - cbn [replicate foldl]. rewrite (cycle_event_run event 1) by auto. cbn [final].
    rewrite IH by auto. fields.
    set (n := Z.of_nat (length (alive_of (enemies s)))).
    match goal with
    | |- with_target_index ?a (with_target_index ?b s) = _ =>
        change (with_target_index a (with_target_index b s)) with (with_target_index a s)
    end.
    f_equal. destruct k as [|k]; [f_equal; lia |].
    rewrite Zplus_mod_idemp_l. f_equal. lia.
Qed.

(** *** What an attack does to the enemies and to the popups *)

Lemma resolved_effects win_message summary s1 s2 s' :
  resolved win_message summary s1 s2 s' ->
  enemies s2 = enemies s1 -> popups s2 = popups s1 -> layout s2 = layout s1 ->
  enemies s' = enemies s1 /\ layout s' = layout s1 /\
  exists extra, popups s' = popups s1 ++ extra /\ (length extra <= 1)%nat.
Proof.
  unfold resolved. intros Hres He Hp Hl. destruct (_alive_enemies s1).
  - subst s'. split; [reflexivity |]. split; [reflexivity |].
    exists []. rewrite app_nil_r. auto.
  - destruct Hres as (c & d & _ & _ & _ & He' & _ & Hl' & _ & Hp' & _).
    split; [congruence |]. split; [congruence |].
    eexists. rewrite Hp', Hp. split; [reflexivity | cbn; lia].
Qed.

Lemma attack_effects use_special s :
  wf s -> (use_special = true -> 0 < uses s) ->
  exists s' added,
    _player_attack use_special s = Ok tt s' /\
    layout s' = layout s /\
    popups s' = popups s ++ added /\
    (length added <= length (_alive_enemies s) + 1)%nat /\
    ((_alive_enemies s = [] /\ enemies s' = enemies s /\ added = []) \/
     (exists ds, enemies s' = hit_alive ds (enemies s)) \/
     (exists ref e,
        enemies s !! ref = Some e /\ alive e = true /\
        enemies s' = alter (Creature.take_damage (strike_damage use_special s)) ref
                           (enemies s))).
Proof.
  intros Hwf Huses.
  destruct (_alive_enemies s) as [|a l] eqn:Hal.
  { exists (with_message "Enemy defeated!" (with_outcome (Some WIN) s)), [].
    split; [apply no_enemy_attack_run; auto |].
    rewrite app_nil_r. split; [reflexivity |]. split; [reflexivity |].
    split; [cbn; lia |]. left. auto. }
  rewrite <- Hal.
  destruct (use_special && (1 <? Z.of_nat (length (_alive_enemies s)))) eqn:Harea.
  - apply andb_true_iff in Harea as [-> Hmany%Z.ltb_lt].
    destruct (area_attack_run s Hwf (Huses eq_refl) ltac:(lia)) as (s' & Hrun & Hres).
    apply resolved_effects in Hres as (He & Hl & extra & Hp & Hlen); try reflexivity.
    set (ds := List.map special_damage
                 (rolls_from (player s) (random s) (length (_alive_enemies s)))) in *.
    exists s', (zip_with hit_popup_of ds (enemy_positions s) ++ extra).
    split; [exact Hrun |]. split; [exact Hl |].
    split; [rewrite Hp, app_assoc; reflexivity |].
    split.
    + rewrite length_app, length_zip_with. subst ds.
      rewrite length_map, rolls_from_length. lia.
    + right. left. exists ds. exact He.
  - assert (Hsingle : use_special = true ->
             0 < Creature.special_uses (player s) /\ length (_alive_enemies s) = 1%nat).
    { intros ->. split; [apply Huses; reflexivity |]. cbn in Harea. apply Z.ltb_ge in Harea.
      rewrite Hal in *. cbn [length] in *. lia. }
    destruct (single_attack_run use_special s Hwf ltac:(rewrite Hal; discriminate) Hsingle)
      as (ref & e & s' & Href & He & Halive & Hrun & Hres).
    cbv zeta in Hres.
    apply resolved_effects in Hres as (He' & Hl & extra & Hp & Hlen);
      [| destruct (enemy_is_defeated _ _); reflexivity ..].
    eexists s', (_ :: extra).
    split; [exact Hrun |]. split; [exact Hl |].
    split; [rewrite Hp; cbn [popups struck_one with_popups]; rewrite <- app_assoc;
            reflexivity |].
    split; [rewrite Hal; cbn [length]; lia |].
    right. right. exists ref, e. auto.
Qed.

Lemma take_damage_zero e : Creature.take_damage 0 e = e.
Proof. destruct e. unfold Creature.take_damage. cbn. f_equal. lia. Qed.

Lemma enemy_kept_refl e : enemy_kept e e.
Proof. split; [exists 0; symmetry; apply take_damage_zero | auto]. Qed.

Lemma hit_alive_kept es : forall ds, Forall2 enemy_kept es (hit_alive ds es).
Proof.
  induction es as [|e es IH]; intros ds; cbn [hit_alive]; [constructor |].
  destruct (alive e) eqn:He.
  - destruct ds as [|d ds].
    + constructor; [apply enemy_kept_refl |].
      clear. induction es; constructor; auto using enemy_kept_refl.
    + constructor; [| apply IH]. split; [exists d; reflexivity |].
      unfold alive in He. intros Hd. rewrite Hd in He. discriminate.
  - constructor; [apply enemy_kept_refl | apply IH].
Qed.

Lemma alter_kept d es : forall ref e,
  es !! ref = Some e -> alive e = true ->
  Forall2 enemy_kept es (alter (Creature.take_damage d) ref es).
Proof.
  induction es as [|e0 es IH]; intros ref e Hr He; [discriminate |].
  destruct ref as [|ref]; cbn in *.
  - injection Hr as ->. constructor.
    + split; [exists d; reflexivity |].
      unfold alive in He. intros Hd. rewrite Hd in He. discriminate.
    + clear. induction es; constructor; auto using enemy_kept_refl.
  - constructor; [apply enemy_kept_refl | eapply IH; eauto].
Qed.

Lemma Forall2_kept_refl es : Forall2 enemy_kept es es.
Proof. induction es; constructor; auto using enemy_kept_refl. Qed.

(** Every event, on a battle in which no roll raises. *)
Lemma event_effects event s :
  wf s ->
  exists s' added,
    handle_event event s = Ok tt s' /\
    popups s' = popups s ++ added /\
    (length added <= length (_alive_enemies s) + 1)%nat /\
    Forall2 enemy_kept (enemies s) (enemies s').
Proof.
  intros Hwf.
  assert (Hsame : forall s', enemies s' = enemies s -> popups s' = popups s ->
            popups s' = popups s ++ [] /\
            (length (@nil Popup) <= length (_alive_enemies s) + 1)%nat /\
            Forall2 enemy_kept (enemies s) (enemies s')).
  { intros s' -> ->. rewrite app_nil_r. split; [reflexivity |].
    split; [cbn; lia | apply Forall2_kept_refl]. }
  assert (Hattack : forall use_special, (use_special = true -> 0 < uses s) ->
            exists s' added,
              _player_attack use_special s = Ok tt s' /\
              popups s' = popups s ++ added /\
              (length added <= length (_alive_enemies s) + 1)%nat /\
              Forall2 enemy_kept (enemies s) (enemies s')).
  { intros use_special Hu.
    destruct (attack_effects use_special s Hwf Hu)
      as (s' & added & Hrun & _ & Hp & Hlen & Hcase).
    exists s', added. do 3 (split; [assumption |]).
    destruct Hcase as [(_ & -> & _) | [(ds & ->) | (ref & e & He & Ha & ->)]].
    - apply Forall2_kept_refl.
    - apply hit_alive_kept.
    - eapply alter_kept; eauto. }
  destruct (outcome s) as [o|] eqn:Ho.
  { exists s, []. rewrite handle_event_decided by congruence.
    split; [reflexivity | apply Hsame; reflexivity]. }
  rewrite handle_event_perform by assumption.
  destruct (intent_of s event) as [step|index| | |]; cbn [perform].
  - rewrite cycle_target_run. eexists _, []. split; [reflexivity |].
    apply Hsame; destruct (_alive_enemies s); reflexivity.
  - eexists _, []. split; [reflexivity |]. apply Hsame; reflexivity.
  - apply Hattack. discriminate.
  - destruct (Z.lt_ge_cases 0 (uses s)) as [Hu|Hu].
    + rewrite special_requested_accepted by assumption. apply Hattack. auto.
    + rewrite special_requested_refused by assumption.
      eexists _, []. split; [reflexivity |]. apply Hsame; reflexivity.
  - exists s, []. split; [reflexivity |]. apply Hsame; reflexivity.
Qed.

Lemma enemy_kept_trans e1 e2 e3 : enemy_kept e1 e2 -> enemy_kept e2 e3 -> enemy_kept e1 e3.
Proof.
  intros [[d1 H1] Hd1] [[d2 H2] Hd2]. split.
  - exists (d1 + d2). subst e3 e2. unfold Creature.take_damage. cbn. f_equal. lia.
  - intros Hd. rewrite (Hd1 Hd) in *. auto.
Qed.

Lemma Forall2_kept_trans es1 : forall es2 es3,
  Forall2 enemy_kept es1 es2 -> Forall2 enemy_kept es2 es3 -> Forall2 enemy_kept es1 es3.
Proof.
  induction es1 as [|e es1 IH]; intros es2 es3 H12 H23.
  - inversion H12; subst. inversion H23; subst. constructor.
  - inversion H12; subst. inversion H23; subst.
    constructor; eauto using enemy_kept_trans.
Qed.

Lemma run_effects events : forall s,
  wf s -> target_ok s ->
  wf (run events s) /\ target_ok (run events s) /\
  Forall2 enemy_kept (enemies s) (enemies (run events s)) /\
  (exists added, popups (run events s) = popups s ++ added) /\
  forall event, exists s', handle_event event (run events s) = Ok tt s'.
Proof.
  unfold run. induction events as [|event events IH]; intros s Hwf Ht; cbn [foldl].
  - split; [assumption |]. split; [assumption |]. split; [apply Forall2_kept_refl |].
    split; [exists []; rewrite app_nil_r; reflexivity |].
    intros ev. destruct (handle_event_run ev s Hwf) as (s' & Hs' & _). eauto.
  - destruct (handle_event_run event s Hwf) as (s1 & Hrun & Hwf1 & Hkeep & _).
    destruct (event_effects event s Hwf) as (s1' & added & Hrun' & Hp & _ & Hk).
    assert (s1' = s1) by congruence. subst s1'.
    rewrite Hrun. cbn [final].
    destruct (IH s1 Hwf1 (Hkeep Ht)) as (Hw & Hto & Hk' & (added' & Hp') & Hev).
    split; [assumption |]. split; [assumption |].
    split; [eapply Forall2_kept_trans; eauto |].
    split; [| assumption].
    exists (added ++ added'). rewrite Hp', Hp, app_assoc. reflexivity.
Qed.

(** *** What an event does to the player *)






(** *** The positions, kept up to date *)

Lemma recomputed_positions_ext s s' :
  layout s' = layout s ->
  length (_alive_enemies s') = length (_alive_enemies s) ->
  enemy_positions (_recompute_enemy_positions s')
  = enemy_positions (_recompute_enemy_positions s).
Proof.
  intros Hl Hn. unfold _recompute_enemy_positions.
  cbn [enemy_positions with_enemy_positions]. rewrite Hl, Hn. reflexivity.
Qed.

Lemma in_sync_same s s' :
  layout s' = layout s -> enemy_positions s' = enemy_positions s ->
  length (_alive_enemies s') = length (_alive_enemies s) ->
  in_sync s -> in_sync s'.
Proof.
  unfold in_sync. intros Hl Hp Hn Hs.
  rewrite (recomputed_positions_ext s s') by assumption. congruence.
Qed.

Lemma in_sync_retargeted s : in_sync (retargeted s).
Proof.
  unfold in_sync, retargeted.
  cbn [enemy_positions with_target_index].
  apply recomputed_positions_ext; reflexivity.
Qed.

Lemma in_sync_length s :
  in_sync s ->
  Z.of_nat (length (enemy_positions s)) = Z.max 1 (Z.of_nat (length (_alive_enemies s))).
Proof.
  unfold in_sync. intros <-. unfold _recompute_enemy_positions.
  cbn [enemy_positions with_enemy_positions]. rewrite length_map, length_seq. lia.
Qed.

Lemma in_sync_resolved win_message summary s1 s2 s' :
  resolved win_message summary s1 s2 s' ->
  in_sync s2 -> outcome s' <> Some WIN -> in_sync s'.
Proof.
  unfold resolved. intros Hres Hs Ho. destruct (_alive_enemies s1).
  - subst s'. exfalso. apply Ho. reflexivity.
  - destruct Hres as (c & d & _ & _ & _ & He & _ & Hl & Hp & _).
    apply (in_sync_same s2); try assumption.
    unfold _alive_enemies. rewrite He. reflexivity.
Qed.

Lemma attack_in_sync use_special s :
  wf s -> (use_special = true -> 0 < uses s) -> in_sync s ->
  exists s',
    _player_attack use_special s = Ok tt s' /\
    (outcome s' <> Some WIN -> in_sync s').
Proof.
  intros Hwf Huses Hsync.
  destruct (_alive_enemies s) as [|a l] eqn:Hal.
  { eexists. split; [apply no_enemy_attack_run; auto |].
    intros Ho. exfalso. apply Ho. reflexivity. }
  destruct (use_special && (1 <? Z.of_nat (length (_alive_enemies s)))) eqn:Harea.
  - apply andb_true_iff in Harea as [-> Hmany%Z.ltb_lt].
    destruct (area_attack_run s Hwf (Huses eq_refl) ltac:(lia)) as (s' & Hrun & Hres).
    exists s'. split; [exact Hrun |].
    apply (in_sync_resolved _ _ _ _ _ Hres). apply in_sync_retargeted.
  - assert (Hsingle : use_special = true ->
             0 < Creature.special_uses (player s) /\ length (_alive_enemies s) = 1%nat).
    { intros ->. split; [apply Huses; reflexivity |]. cbn in Harea. apply Z.ltb_ge in Harea.
      rewrite Hal in *. cbn [length] in *. lia. }
    destruct (single_attack_run use_special s Hwf ltac:(rewrite Hal; discriminate) Hsingle)
      as (ref & e & s' & Href & He & Halive & Hrun & Hres).
    cbv zeta in Hres.
    exists s'. split; [exact Hrun |].
    apply (in_sync_resolved _ _ _ _ _ Hres).
    destruct (enemy_is_defeated ref _) eqn:Hdef; [apply in_sync_retargeted |].
    apply (in_sync_same s); try reflexivity; [| assumption].
    unfold enemy_is_defeated, struck_one in Hdef.
    cbn [enemies with_popups with_enemies] in Hdef.
    rewrite list_lookup_alter_eq, He in Hdef. cbn [fmap option_fmap option_map] in Hdef.
    unfold _alive_enemies, struck_one. cbn [enemies with_popups with_enemies].
    apply (alive_of_alter_alive _ _ _ e); [assumption | assumption |].
    unfold alive. rewrite Hdef. reflexivity.
Qed.

Lemma event_in_sync event s :
  wf s -> in_sync s ->
  exists s',
    handle_event event s = Ok tt s' /\
    (outcome s' <> Some WIN -> in_sync s').
Proof.
  intros Hwf Hsync.
  assert (Hsame : forall s', layout s' = layout s ->
            enemy_positions s' = enemy_positions s -> enemies s' = enemies s ->
            outcome s' <> Some WIN -> in_sync s').
  { intros s' Hl Hp He _. apply (in_sync_same s); try assumption.
    unfold _alive_enemies. rewrite He. reflexivity. }
  destruct (outcome s) as [o|] eqn:Ho.
  { exists s. rewrite handle_event_decided by congruence. auto. }
  rewrite handle_event_perform by assumption.
  destruct (intent_of s event) as [step|index| | |]; cbn [perform].
  - rewrite cycle_target_run. eexists. split; [reflexivity |].
    apply Hsame; destruct (_alive_enemies s); reflexivity.
  - eexists. split; [reflexivity |]. apply Hsame; reflexivity.
  - apply attack_in_sync; [assumption | discriminate | assumption].
  - destruct (Z.lt_ge_cases 0 (uses s)) as [Hu|Hu].
    + rewrite special_requested_accepted by assumption. apply attack_in_sync; auto.
    + rewrite special_requested_refused by assumption.
      eexists. split; [reflexivity |]. apply Hsame; reflexivity.
  - exists s. auto.
Qed.

Lemma run_decided events : forall s, outcome s <> None -> run events s = s.
Proof.
  unfold run. induction events as [|event events IH]; intros s Ho; cbn [foldl]; [reflexivity |].
  rewrite handle_event_decided by assumption. cbn [final]. auto.
Qed.

Lemma run_in_sync events : forall s,
  wf s -> in_sync s -> outcome (run events s) <> Some WIN -> in_sync (run events s).
Proof.
  induction events as [|event events IH]; intros s Hwf Hsync Ho; [exact Hsync |].
  destruct (handle_event_run event s Hwf) as (s1 & Hrun & Hwf1 & _).
  destruct (event_in_sync event s Hwf Hsync) as (s1' & Hrun' & Hs1).
  assert (s1' = s1) by congruence. subst s1'.
  change (run (event :: events) s) with (run events (final (handle_event event s))) in *.
  rewrite Hrun in *. cbn [final] in *.
  apply IH; [assumption | | assumption].
  apply Hs1. intros Hwin. apply Ho. rewrite run_decided by congruence. exact Hwin.
Qed.

Lemma init_in_sync p enemy lay g : in_sync (init p enemy lay g).
Proof.
  unfold init, __init__, modify, final, in_sync.
  apply recomputed_positions_ext; reflexivity.
Qed.

Lemma handle_events_run events : forall s,
  wf s -> target_ok s ->
  handle_events events s = Ok tt (run events s) /\
  wf (run events s) /\ target_ok (run events s).
Proof.
  unfold run.
  induction events as [|event events IH]; intros s Hwf Ht; cbn [handle_events foldl].
  - auto.
  - destruct (handle_event_run event s Hwf) as (s1 & Hrun & Hwf1 & Hkeep & _).
    unfold bind. rewrite Hrun. cbn [final]. apply IH; auto.
Qed.

(** *** The health the enemies have left *)







End BattleExtraFacts.

Module BattleExtra.
Import Py Battle BattleFacts View BattleExtraFacts.

(** X7. [_recompute_enemy_positions] changes the positions only. It lays
    out one position for each alive enemy, and one when none is alive, all
    on one row, a sprite width and a pad apart, the last sprite ending at the
    right margin; doing it again changes nothing. *)
Theorem enemy_positions_layout (s : t) :
  let s' := _recompute_enemy_positions s in
  let n := Z.max 1 (Z.of_nat (length (_alive_enemies s))) in
  let lay := layout s in
  s' = with_enemy_positions (enemy_positions s') s /\
  Z.of_nat (length (enemy_positions s')) = n /\
  (forall i p, enemy_positions s' !! i = Some p ->
     p.2 = row_y lay /\
     p.1 + (n - Z.of_nat i) * (sprite_size lay).1 + (n - 1 - Z.of_nat i) * pad lay
     = screen_width lay - margin lay) /\
  _recompute_enemy_positions s' = s'.
Proof.
  intros s' n lay. split; [reflexivity |]. split; [| split].
  - unfold s', _recompute_enemy_positions. fields.
    rewrite length_map, length_seq. fold n. lia.
  - intros i p Hp. unfold s' in Hp. rewrite recomputed_positions_lookup in Hp.
    fold n lay in Hp. destruct (decide (Z.of_nat i < n)); [| discriminate].
    injection Hp as <-. cbn [fst snd]. split; [reflexivity | lia].
  - reflexivity.
Qed.

(** X8. For a point that fits, as every rectangle it is tested against,
    [_enemy_at_pos] returns the first alive enemy, in display order, whose
    sprite rectangle contains the point, and [None] when no such rectangle
    does; an enemy without a position is never returned. *)
Theorem click_finds_first_sprite (s : t) (mouse_pos : Z * Z) :
  point_fits s mouse_pos = true ->
  match _enemy_at_pos s mouse_pos with
  | Some k =>
      exists i p, k = Z.of_nat i /\ (i < length (_alive_enemies s))%nat /\
                  enemy_positions s !! i = Some p /\
                  collidepoint (sprite_rect (layout s) p) mouse_pos = true /\
                  forall j q, (j < i)%nat -> enemy_positions s !! j = Some q ->
                              collidepoint (sprite_rect (layout s) q) mouse_pos = false
  | None =>
      forall i p, (i < length (_alive_enemies s))%nat -> enemy_positions s !! i = Some p ->
                  collidepoint (sprite_rect (layout s) p) mouse_pos = false
  end.
Proof.
  intros _. apply enemy_at_pos_spec.
Qed.

Lemma click_finds_first_sprite_witness :
  exists i p, 1 = Z.of_nat i /\ (i < length (_alive_enemies Scenario.brawl))%nat /\
              enemy_positions Scenario.brawl !! i = Some p /\
              collidepoint (sprite_rect (layout Scenario.brawl) p) (600, 200) = true /\
              forall j q, (j < i)%nat -> enemy_positions Scenario.brawl !! j = Some q ->
                          collidepoint (sprite_rect (layout Scenario.brawl) q) (600, 200)
                          = false.
Proof.
  assert (Hfit : point_fits Scenario.brawl (600, 200) = true) by (vm_compute; reflexivity).
  exact (click_finds_first_sprite Scenario.brawl (600, 200) Hfit).
Defined.

(** X9. On the positions [_recompute_enemy_positions] lays out, with sprites
    of positive size and a pad that is not negative, the sprites do not
    overlap: a click inside the rectangle of the [i]-th alive enemy selects
    [i] and makes it the target. *)
Theorem click_on_sprite_selects_it (s : t) (i : nat) (p mouse_pos : Z * Z) :
  let s' := _recompute_enemy_positions s in
  0 < (sprite_size (layout s)).1 -> 0 <= pad (layout s) ->
  outcome s = None ->
  (i < length (_alive_enemies s))%nat ->
  enemy_positions s' !! i = Some p ->
  collidepoint (sprite_rect (layout s) p) mouse_pos = true ->
  _enemy_at_pos s' mouse_pos = Some (Z.of_nat i) /\
  handle_event (MOUSEBUTTONDOWN 1 mouse_pos) s' = Ok tt (with_target_index (Z.of_nat i) s').
Proof.
  intros s' Hw Hpad Ho Hi Hp Hc.
  assert (Hat : _enemy_at_pos s' mouse_pos = Some (Z.of_nat i)).
  { pose proof (enemy_at_pos_spec s' mouse_pos) as H.
    destruct (_enemy_at_pos s' mouse_pos) as [k|].
    - destruct H as (j & q & -> & Hj & Hq & Hcq & Hfirst).
      destruct (Nat.lt_trichotomy j i) as [Hlt | [-> | Hgt]]; [| reflexivity |].
      + (* the rectangle of an earlier sprite ends before [p] starts *)
        exfalso. unfold s' in Hp, Hq. rewrite recomputed_positions_lookup in Hp, Hq.
        destruct (decide _) in Hp; [| discriminate].
        destruct (decide _) in Hq; [| discriminate].
        injection Hp as <-. injection Hq as <-.
        unfold collidepoint, sprite_rect in Hc, Hcq. cbn in Hc, Hcq.
        apply andb_prop in Hc as [Hc _]. apply andb_prop in Hc as [Hc _].
        apply andb_prop in Hc as [Hc _].
        apply andb_prop in Hcq as [Hcq _]. apply andb_prop in Hcq as [Hcq _].
        apply andb_prop in Hcq as [_ Hcq].
        apply Z.leb_le in Hc. apply Z.ltb_lt in Hcq. nia.
      + exfalso. specialize (Hfirst i p Hgt Hp). change (layout s') with (layout s) in Hfirst.
        congruence.
    - exfalso. specialize (H i p Hi Hp). change (layout s') with (layout s) in H.
      congruence. }
  split; [exact Hat |].
  unfold handle_event, bind, get. change (outcome s') with (outcome s). rewrite Ho.
  cbn [Z.eqb Pos.eqb]. rewrite Hat. reflexivity.
Qed.

Lemma click_on_sprite_selects_it_witness :
  _enemy_at_pos (_recompute_enemy_positions Scenario.brawl) (600, 200) = Some 1 /\
  handle_event (MOUSEBUTTONDOWN 1 (600, 200)) (_recompute_enemy_positions Scenario.brawl)
  = Ok tt (with_target_index 1 (_recompute_enemy_positions Scenario.brawl)).
Proof.
  apply (click_on_sprite_selects_it Scenario.brawl 1 (520, 176) (600, 200)).
  - cbn. lia.
  - cbn. lia.
  - reflexivity.
  - vm_compute. lia.
  - reflexivity.
  - reflexivity.
Defined.

(** X10. The two views of the alive enemies agree: [_alive_indices] and
    [_alive_enemies] have the same length, the [k]-th index is the place in
    [self.enemies] of the [k]-th alive enemy, which is not defeated, and the
    indices are strictly increasing. So [draw] pairs each alive enemy with
    the sprite prepared for it. *)
Theorem alive_views_agree (s : t) :
  length (_alive_indices s) = length (_alive_enemies s) /\
  (forall k r, _alive_indices s !! k = Some r ->
     exists e, enemies s !! r = Some e /\ _alive_enemies s !! k = Some e /\
               Creature.is_defeated e = false) /\
  (forall k k' r r', (k < k')%nat ->
     _alive_indices s !! k = Some r -> _alive_indices s !! k' = Some r' -> (r < r')%nat).
Proof.
  split; [apply alive_from_length |]. split.
  - intros k r Hk. destruct (alive_from_lookup _ _ _ _ Hk) as (e & _ & He & Ha & Hk').
    rewrite Nat.sub_0_r in He. exists e. repeat split; auto.
    unfold alive in Ha. destruct (Creature.is_defeated e); [discriminate | reflexivity].
  - intros k k' r r'. apply alive_from_increasing.
Qed.

(** X11. [_get_target] returns nothing, and changes nothing, exactly when no
    enemy is alive. Otherwise it clamps [target_index] into the alive view
    (below zero to the first, beyond the end to the last, a valid index is
    kept) and returns the alive enemy at that index; nothing else changes. *)
Theorem get_target_clamps (s : t) :
  match _alive_enemies s with
  | [] => _get_target s = Ok None s
  | _ =>
      let n := Z.of_nat (length (_alive_enemies s)) in
      exists ref e i,
        _get_target s = Ok (Some (ref, i)) (with_target_index i s) /\
        0 <= i < n /\
        (target_index s < 0 -> i = 0) /\
        (n <= target_index s -> i = n - 1) /\
        (0 <= target_index s < n -> i = target_index s) /\
        enemies s !! ref = Some e /\
        _alive_enemies s !! Z.to_nat i = Some e /\
        Creature.is_defeated e = false
  end.
Proof.
  unfold _get_target, bind, get.
  destruct (_alive_enemies s) as [|a l] eqn:Hal.
  - apply (alive_from_nil 0) in Hal. unfold _alive_indices. rewrite Hal. reflexivity.
  - cbv zeta. set (n := Z.of_nat (length (a :: l))).
    assert (Hn : 0 < n) by (subst n; cbn [length]; lia).
    set (i := clamp_index (target_index s) (length (a :: l))).
    assert (Hi : 0 <= i < n) by (subst i n; unfold clamp_index; lia).
    destruct (lookup_lt_is_Some_2 (_alive_indices s) (Z.to_nat i)) as [ref Href].
    { unfold _alive_indices. rewrite alive_from_length. fold (_alive_enemies s).
      rewrite Hal. fold n. lia. }
    destruct (alive_from_lookup _ _ _ _ Href) as (e & _ & He & Ha & Hk).
    rewrite Nat.sub_0_r in He. fold (_alive_enemies s) in Hk. rewrite Hal in Hk.
    destruct (_alive_indices s) as [|r0 rs] eqn:Hidx; [discriminate |].
    exists ref, e, i. unfold modify, ret.
    rewrite (nth_lookup_Some _ _ _ _ Href).
    split; [reflexivity |]. split; [exact Hi |].
    split; [subst i; unfold clamp_index; fold n; lia |].
    split; [subst i; unfold clamp_index; fold n; lia |].
    split; [subst i; unfold clamp_index; fold n; lia |].
    do 2 (split; [assumption |]).
    unfold alive in Ha. destruct (Creature.is_defeated e); [discriminate | reflexivity].
Qed.

(** X12. On an undecided battle whose target is valid, cycling to the next
    target and back to the previous one, or the other way round, leaves the
    battle as it was, and so does cycling forward as many times as there are
    alive enemies. *)
Theorem cycling_round_trip (s : t) :
  outcome s = None -> target_ok s ->
  run [KEYDOWN K_RIGHT; KEYDOWN K_LEFT] s = s /\
  run [KEYDOWN K_a; KEYDOWN K_d] s = s /\
  run (replicate (length (_alive_enemies s)) (KEYDOWN K_d)) s = s.
Proof.
  intros Ho Hok.
  destruct (_alive_enemies s) as [|a l] eqn:Hal.
  { assert (Hcyc : forall ev step, intent_of s ev = CycleTarget step ->
                                   handle_event ev s = Ok tt s).
    { intros ev step Hi. rewrite handle_event_perform, Hi by assumption. cbn [perform].
      rewrite cycle_target_run, Hal. reflexivity. }
    unfold run. cbn [foldl length replicate].
    rewrite (Hcyc (KEYDOWN K_RIGHT) 1 eq_refl). cbn [final].
    rewrite (Hcyc (KEYDOWN K_LEFT) (-1) eq_refl). cbn [final].
    rewrite (Hcyc (KEYDOWN K_a) (-1) eq_refl). cbn [final].
    rewrite (Hcyc (KEYDOWN K_d) 1 eq_refl). auto. }
  assert (Hne : _alive_enemies s <> []) by (rewrite Hal; discriminate).
  specialize (Hok Hne). rewrite Hal in Hok.
  set (n := Z.of_nat (length (a :: l))) in *.
  assert (Hback : forall ev1 ev2 step,
            intent_of s ev1 = CycleTarget step ->
            (forall s0, intent_of s0 ev2 = CycleTarget (- step)) ->
            run [ev1; ev2] s = s).
  { intros ev1 ev2 step H1 H2. unfold run. cbn [foldl].
    rewrite (cycle_event_run ev1 step) by assumption. cbn [final].
    rewrite (cycle_event_run ev2 (- step)); auto. cbn [final]. fields.
    rewrite Hal. fold n.
    match goal with
    | |- with_target_index ?a (with_target_index ?b s) = _ =>
        change (with_target_index a (with_target_index b s)) with (with_target_index a s)
    end.
    rewrite Zplus_mod_idemp_l.
    replace (target_index s + step + - step) with (target_index s) by lia.
    rewrite Z.mod_small by lia. apply with_target_index_same. }
  split; [apply (Hback _ _ 1); reflexivity |].
  split; [apply (Hback _ _ (-1)); reflexivity |].
  rewrite cycle_steps_run by auto. rewrite Hal.
  change (length (a :: l)) with (S (length l)). cbv iota.
  change (Z.of_nat (S (length l))) with n.
  replace (target_index s + n) with (target_index s + 1 * n) by lia.
  rewrite Z_mod_plus_full, Z.mod_small by lia. apply with_target_index_same.
Qed.

Lemma cycling_round_trip_witness :
  run [KEYDOWN K_RIGHT; KEYDOWN K_LEFT] Scenario.brawl = Scenario.brawl.
Proof.
  apply (cycling_round_trip Scenario.brawl); [reflexivity |].
  intros _. vm_compute. split; [discriminate | reflexivity].
Defined.

(** X13. Selecting a target costs no turn: an event that carries no attack
    (cycling, a click on a sprite, an unbound key, a click beside the
    buttons) and whose position, if it is looked at, fits, whatever the
    outcome, returns and changes at most [target_index]; no health, popup,
    message or special use is touched and nothing is drawn from the random
    source. *)
Theorem targeting_changes_target_only (s : t) (event : Event) :
  click_fits s event = true ->
  match intent_of s event with
  | BasicAttack | SpecialAttack => True
  | _ => exists i, handle_event event s = Ok tt (with_target_index i s)
  end.
Proof.
  intros _. destruct (outcome s) as [o|] eqn:Ho.
  { rewrite handle_event_decided by congruence.
    destruct (intent_of s event); trivial;
      exists (target_index s); rewrite with_target_index_same; reflexivity. }
  rewrite handle_event_perform by assumption.
  destruct (intent_of s event) as [step|index| | |]; cbn [perform]; trivial.
  - rewrite cycle_target_run. destruct (_alive_enemies s).
    + exists (target_index s). rewrite with_target_index_same. reflexivity.
    + eexists. reflexivity.
  - eexists. reflexivity.
  - exists (target_index s). rewrite with_target_index_same. reflexivity.
Qed.

Lemma targeting_changes_target_only_witness :
  exists i, handle_event (MOUSEBUTTONDOWN 1 (600, 200)) Scenario.brawl
            = Ok tt (with_target_index i Scenario.brawl).
Proof.
  assert (Hfit : click_fits Scenario.brawl (MOUSEBUTTONDOWN 1 (600, 200)) = true)
    by (vm_compute; reflexivity).
  exact (targeting_changes_target_only Scenario.brawl (MOUSEBUTTONDOWN 1 (600, 200)) Hfit).
Defined.

(** X14. Events the battle has no binding for are ignored altogether: any
    other key, any event that is neither a key press nor a mouse press, and
    every press of a mouse button other than the left one, wherever it
    falls, even on a sprite or on a button. *)
Theorem unbound_events_are_ignored (s : t) :
  (forall code, handle_event (KEYDOWN (K_other code)) s = Ok tt s) /\
  handle_event OtherEvent s = Ok tt s /\
  (forall button pos, button <> 1 -> handle_event (MOUSEBUTTONDOWN button pos) s = Ok tt s).
Proof.
  assert (H : forall ev, (outcome s = None -> intent_of s ev = NoIntent) ->
                         handle_event ev s = Ok tt s).
  { intros ev Hev. destruct (outcome s) eqn:Ho.
    - apply handle_event_decided. congruence.
    - rewrite handle_event_perform, Hev by auto. reflexivity. }
  split; [intros; apply H; reflexivity |]. split; [apply H; reflexivity |].
  intros button pos Hb. apply H. intros _. cbn [intent_of].
  apply Z.eqb_neq in Hb. rewrite Hb. unfold button_intent, is_clicked. rewrite Hb.
  reflexivity.
Qed.

Lemma unbound_events_are_ignored_witness :
  handle_event (MOUSEBUTTONDOWN 3 (300, 620)) Scenario.brawl = Ok tt Scenario.brawl.
Proof. apply (unbound_events_are_ignored Scenario.brawl). discriminate. Defined.







(** X18. A player whose damage range is empty cannot attack: on an
    undecided battle with an enemy alive, a basic attack raises [ValueError]
    after clamping the target and before any damage, and so does a special
    attack on a single enemy, which keeps its use; a special attack on several
    enemies raises it too, but after the special use was consumed. *)
Theorem empty_damage_range_raises (s : t) :
  outcome s = None -> _alive_enemies s <> [] ->
  Creature.damage_max (player s) < Creature.damage_min (player s) ->
  let clamped :=
    with_target_index (clamp_index (target_index s) (length (_alive_enemies s))) s in
  handle_event (KEYDOWN K_RETURN) s = Raise ValueError clamped /\
  (0 < uses s -> length (_alive_enemies s) = 1%nat ->
   handle_event (KEYDOWN K_s) s = Raise ValueError clamped) /\
  (0 < uses s -> (1 < length (_alive_enemies s))%nat ->
   handle_event (KEYDOWN K_s) s =
   Raise ValueError (with_player (Creature.spend_special (player s)) s)).
Proof.
  intros Ho Hne Hempty clamped.
  assert (Hidx : exists r rs, _alive_indices s = r :: rs).
  { destruct (_alive_indices s) as [|r rs] eqn:E; [| eauto].
    apply alive_from_nil in E. contradiction. }
  destruct Hidx as (r & rs & Hidx).
  assert (Hroll : forall s0, player s0 = player s ->
            draw (Creature.roll_damage (player s0)) s0
            = Raise ValueError (with_random (random s0) s0)).
  { intros s0 Hp. unfold draw, zoom, Creature.roll_damage. rewrite Hp.
    rewrite RandomFacts.randint_empty by assumption. reflexivity. }
  assert (Hspecial : forall s0,
            Creature.damage_min (player s0) = Creature.damage_min (player s) ->
            Creature.damage_max (player s0) = Creature.damage_max (player s) ->
            draw (Creature.roll_special_damage (player s0)) s0
            = Raise ValueError (with_random (random s0) s0)).
  { intros s0 Hmin Hmax.
    unfold draw, zoom, Creature.roll_special_damage, bind, Creature.roll_damage.
    rewrite RandomFacts.randint_empty by (rewrite Hmin, Hmax; assumption). reflexivity. }
  split; [| split].
  - rewrite handle_event_perform by assumption. cbn [intent_of perform].
    unfold _player_attack. cbn [andb]. unfold bind at 1. unfold get at 1.
    rewrite Hidx. unfold bind at 1. unfold _get_target, bind at 1. unfold get at 1.
    rewrite Hidx. unfold bind at 1. unfold modify at 1, ret at 1.
    unfold bind at 1. unfold player_roll_damage, bind at 1. unfold get at 1.
    rewrite Hroll by reflexivity. reflexivity.
  - intros Hu Hone.
    rewrite handle_event_perform by assumption. cbn [intent_of perform].
    rewrite special_requested_accepted by assumption.
    unfold _player_attack. cbn [andb]. unfold bind at 1. unfold get at 1.
    destruct (Z.leb_spec (Creature.special_uses (player s)) 0) as [Hle|_];
      [unfold uses in Hu; lia |].
    rewrite Hidx, Hone. change (1 <? Z.of_nat 1) with false. cbv iota.
    unfold bind at 1. unfold _get_target, bind at 1. unfold get at 1.
    rewrite Hidx. unfold bind at 1. unfold modify at 1, ret at 1.
    unfold bind at 1. unfold bind at 1.
    unfold player_roll_special_damage, bind at 1. unfold get at 1.
    rewrite Hspecial by reflexivity. subst clamped. rewrite Hone. reflexivity.
  - intros Hu Hmany.
    rewrite handle_event_perform by assumption. cbn [intent_of perform].
    rewrite special_requested_accepted by assumption.
    unfold _player_attack. cbn [andb]. unfold bind at 1. unfold get at 1.
    destruct (Z.leb_spec (Creature.special_uses (player s)) 0) as [Hle|_];
      [unfold uses in Hu; lia |].
    rewrite Hidx.
    destruct (Z.ltb_spec 1 (Z.of_nat (length (_alive_enemies s)))) as [_|Hle]; [| lia].
    unfold bind at 1. unfold spend_special, modify at 1.
    unfold bind at 1. cbn [special_all].
    unfold bind at 1. unfold player_roll_special_damage, bind at 1. unfold get at 1.
    rewrite Hspecial by reflexivity. reflexivity.
Qed.

Lemma empty_damage_range_raises_witness :
  handle_event (KEYDOWN K_RETURN) View.fumble = Raise ValueError View.fumble /\
  handle_event (KEYDOWN K_s) View.fumble = Raise ValueError View.fumble /\
  handle_event (KEYDOWN K_s) View.scrum
  = Raise ValueError (with_player (Creature.spend_special View.clumsy) View.scrum).
Proof.
  destruct (empty_damage_range_raises View.fumble) as (H1 & H2 & _);
    [reflexivity | vm_compute; discriminate | vm_compute; reflexivity |].
  destruct (empty_damage_range_raises View.scrum) as (_ & _ & H3);
    [reflexivity | vm_compute; discriminate | vm_compute; reflexivity |].
  split; [exact H1 | split].
  - apply H2; [vm_compute; reflexivity | reflexivity].
  - apply H3; [vm_compute; reflexivity | vm_compute; lia].
Defined.





(** X21. The positions of the sprites are kept up to date. The constructor
    leaves the positions [_recompute_enemy_positions] computes, and so does
    every sequence of events on a battle in which no roll raises, unless the
    battle is won: there is then one position for each alive enemy. *)
Theorem positions_stay_in_sync (s : t) (events : list Event) :
  (forall p enemy lay g, in_sync (init p enemy lay g)) /\
  (wf s -> in_sync s -> outcome (run events s) <> Some WIN ->
   in_sync (run events s) /\
   Z.of_nat (length (enemy_positions (run events s)))
   = Z.max 1 (Z.of_nat (length (_alive_enemies (run events s))))).
Proof.
  split.
  - apply init_in_sync.
  - intros Hwf Hsync Ho.
    assert (H : in_sync (run events s)) by (apply run_in_sync; assumption).
    split; [exact H | apply in_sync_length; exact H].
Qed.

Lemma positions_stay_in_sync_witness :
  in_sync (run [KEYDOWN K_s] Scenario.brawl) /\
  Z.of_nat (length (enemy_positions (run [KEYDOWN K_s] Scenario.brawl)))
  = Z.max 1 (Z.of_nat (length (_alive_enemies (run [KEYDOWN K_s] Scenario.brawl)))).
Proof.
  apply (positions_stay_in_sync Scenario.brawl [KEYDOWN K_s]);
    [exact brawl_wf | vm_compute; reflexivity | vm_compute; discriminate].
Defined.



End BattleExtra.

Module MainFacts.
Import Py Battle BattleFacts View BattleExtraFacts Float64Facts.

(** *** [int(x * mult)] for a multiplier in [1, 2) *)

Lemma scaled_arith (x M pT pc q0 q r : Z) :
  0 < x -> 0 < M ->
  pT * pc = 2 ^ 52 -> 2 ^ 12 <= pT -> 0 < pc ->
  q0 * pc <= x * M < q0 * pc + pc ->
  q0 <= q <= q0 + 1 ->
  r * pT <= q < r * pT + pT ->
  r * 2 ^ 52 <= x * M + 2 ^ 40 /\ x * M < (r + 1) * 2 ^ 52.
Proof.
  intros Hx HM Hprod HpT Hpc Hq0 Hq Hr.
  assert (Hpc40 : pc <= 2 ^ 40).
  { change (2 ^ 52) with (2 ^ 12 * 2 ^ 40) in Hprod.
    change (2 ^ 12) with 4096 in *. change (2 ^ 40) with 1099511627776 in *. nia. }
  rewrite <- Hprod. split.
  - assert (r * pT * pc <= q * pc) by nia.
    assert (q * pc <= q0 * pc + pc) by nia.
    replace (r * (pT * pc)) with (r * pT * pc) by ring. lia.
  - assert (q0 + 1 <= (r + 1) * pT) by nia.
    assert ((q0 + 1) * pc <= (r + 1) * pT * pc) by nia.
    replace ((r + 1) * (pT * pc)) with ((r + 1) * pT * pc) by ring. lia.
Qed.

Lemma scaled_run x M g :
  0 < x < 2 ^ 40 -> 2 ^ 52 <= Z.pos M < 2 ^ 53 ->
  exists r,
    Main.scaled x (S754_finite false M (-52)) g = Ok r g /\
    r * 2 ^ 52 <= x * Z.pos M + 2 ^ 40 /\ x * Z.pos M < (r + 1) * 2 ^ 52.
Proof.
  intros Hx HM.
  assert (H40 : 2 ^ 40 < 2 ^ 53) by (apply Z.pow_lt_mono_r; lia).
  destruct (of_int_spec x) as (mb & a & Hof & Ha & Hmb & Hdb); [lia |].
  unfold Main.scaled. rewrite Hof.
  pose proof (digits_bounds mb) as Hbb. rewrite Hdb in Hbb. change (53 - 1) with 52 in Hbb.
  assert (Ha13 : 13 <= a).
  { destruct (Z.le_gt_cases 13 a) as [|Hlt]; [assumption |].
    assert (2 ^ a <= 2 ^ 12) by (apply Z.pow_le_mono_r; lia).
    assert (x * 2 ^ a < 2 ^ 40 * 2 ^ 12) by (pose proof (pow2_pos a); nia).
    rewrite <- pow2_split in * by lia. change (40 + 12) with 52 in *. lia. }
  unfold Float64.mul, Float64.prec, Float64.emax. cbn [SFmul xorb].
  set (P := (mb * M)%positive).
  assert (HP : Z.pos P = x * Z.pos M * 2 ^ a) by (subst P; lia).
  assert (HdP : 105 <= Z.pos (digits2_pos P) <= 106).
  { split.
    - apply (digits_ge P 104). replace 104 with (52 + 52) by lia.
      rewrite pow2_split by lia. subst P. rewrite Pos2Z.inj_mul.
      apply Z.mul_le_mono_nonneg; lia.
    - apply (digits_le P 106); [lia |]. replace 106 with (53 + 53) by lia.
      rewrite pow2_split by lia. subst P. rewrite Pos2Z.inj_mul.
      apply Z.mul_lt_mono_nonneg; lia. }
  destruct (round_aux_any P (- a + -52)) as (m2 & e2 & q1 & Hmul & Hq1 & Hd2 & He2);
    [lia | lia | lia |].
  rewrite Hmul. clear Hmul.
  set (n := Z.pos (digits2_pos P) - 53) in *.
  set (T := a + 52 - n).
  assert (HT : 12 <= T <= 52) by (subst T n; lia).
  rewrite (to_int_floor m2 e2 q1 T); [| lia | subst T; lia].
  exists (q1 / 2 ^ T). split; [reflexivity |].
  set (pT := 2 ^ T). set (pc := 2 ^ (52 - T)).
  assert (HpT : 2 ^ 12 <= pT) by (apply Z.pow_le_mono_r; lia).
  assert (HpT0 : 0 < pT) by (apply pow2_pos; lia).
  assert (Hpc : 0 < pc) by (apply pow2_pos; lia).
  assert (Hprod : pT * pc = 2 ^ 52).
  { subst pT pc. rewrite <- pow2_split by lia. f_equal. lia. }
  set (q0 := Z.pos P / 2 ^ n) in *.
  assert (Hq0 : q0 * pc <= x * Z.pos M < q0 * pc + pc).
  { assert (E : q0 = x * Z.pos M / pc).
    { subst q0 pc. rewrite HP. replace n with (52 - T + a) by (subst T; lia).
      rewrite pow2_split by lia.
      apply Z.div_mul_cancel_r; apply Z.pow_nonzero; lia. }
    rewrite E.
    pose proof (Z.mul_div_le (x * Z.pos M) pc Hpc).
    pose proof (Z.mul_succ_div_gt (x * Z.pos M) pc Hpc). lia. }
  apply (scaled_arith x (Z.pos M) pT pc q0 q1 (q1 / pT)); try lia.
  pose proof (Z.mul_div_le q1 pT HpT0).
  pose proof (Z.mul_succ_div_gt q1 pT HpT0). lia.
Qed.

Lemma scaled_zero M e g : Main.scaled 0 (S754_finite false M e) g = Ok 0 g.
Proof. reflexivity. Qed.

Lemma scaled_hp x g :
  0 <= x < 2 ^ 40 -> Main.scaled x Main.BOSS_HP_MULT g = Ok (5 * x / 4) g.
Proof.
  intros Hx. destruct (Z.eq_dec x 0) as [->|Hnz]; [apply scaled_zero |].
  destruct (scaled_run x 5629499534213120 g) as (r & Hrun & Hlo & Hhi);
    [lia | change (2 ^ 52) with 4503599627370496; change (2 ^ 53) with 9007199254740992; lia |].
  unfold Main.BOSS_HP_MULT. rewrite Hrun. f_equal.
  change (2 ^ 52) with 4503599627370496 in *. change (2 ^ 40) with 1099511627776 in *.
  apply (Z.div_unique _ _ _ (5 * x - 4 * r)); lia.
Qed.

Lemma scaled_dmg x g :
  0 <= x < 2 ^ 40 ->
  exists r, Main.scaled x Main.BOSS_DMG_MULT g = Ok r g /\
            23 * x - 20 <= 20 * r <= 23 * x /\ x <= r.
Proof.
  intros Hx. destruct (Z.eq_dec x 0) as [->|Hnz].
  { exists 0. split; [apply scaled_zero | lia]. }
  destruct (scaled_run x 5179139571476070 g) as (r & Hrun & Hlo & Hhi);
    [lia | change (2 ^ 52) with 4503599627370496; change (2 ^ 53) with 9007199254740992; lia |].
  exists r. split; [exact Hrun |].
  change (2 ^ 52) with 4503599627370496 in *. change (2 ^ 40) with 1099511627776 in *.
  lia.
Qed.

(** Scaling is a function of the value, so equal values scale alike, and
    a larger value does not scale to a smaller one. *)
Lemma scaled_dmg_mono x y g rx ry :
  0 <= x <= y -> y < 2 ^ 40 ->
  Main.scaled x Main.BOSS_DMG_MULT g = Ok rx g ->
  Main.scaled y Main.BOSS_DMG_MULT g = Ok ry g ->
  rx <= ry.
Proof.
  intros Hxy Hy Hx' Hy'.
  destruct (Z.eq_dec x y) as [->|Hne]; [assert (rx = ry) by congruence; lia |].
  destruct (scaled_dmg x g) as (r1 & H1 & Hb1 & _); [lia |].
  destruct (scaled_dmg y g) as (r2 & H2 & Hb2 & _); [lia |].
  assert (r1 = rx) by congruence. assert (r2 = ry) by congruence. lia.
Qed.

Lemma boss_scaled_run e g :
  0 <= Creature.max_health e < 2 ^ 40 ->
  0 <= Creature.damage_min e < 2 ^ 40 -> 0 <= Creature.damage_max e < 2 ^ 40 ->
  exists boss,
    Main.boss_scaled e g = Ok boss g /\
    same_stats {| Creature.element := Creature.element e; Creature.level := Creature.level e;
                  Creature.max_health := Creature.max_health boss;
                  Creature.current_health := Creature.current_health e;
                  Creature.damage_min := Creature.damage_min boss;
                  Creature.damage_max := Creature.damage_max boss;
                  Creature.max_special_uses := Creature.max_special_uses e;
                  Creature.special_uses := Creature.special_uses e |} boss /\
    Creature.special_uses boss = Creature.special_uses e /\
    Creature.current_health boss = Creature.max_health boss /\
    Creature.max_health boss = 5 * Creature.max_health e / 4 /\
    23 * Creature.damage_min e - 20 <= 20 * Creature.damage_min boss
      <= 23 * Creature.damage_min e /\
    23 * Creature.damage_max e - 20 <= 20 * Creature.damage_max boss
      <= 23 * Creature.damage_max e /\
    (Creature.damage_min e <= Creature.damage_max e ->
     Creature.damage_min boss <= Creature.damage_max boss).
Proof.
  intros Hh Hmin Hmax.
  destruct (scaled_dmg (Creature.damage_min e) g Hmin) as (r1 & H1 & Hb1 & _).
  destruct (scaled_dmg (Creature.damage_max e) g Hmax) as (r2 & H2 & Hb2 & _).
  eexists. unfold Main.boss_scaled, bind.
  rewrite scaled_hp by assumption. rewrite H1, H2.
  split; [reflexivity |]. cbn [Creature.max_health Creature.current_health
    Creature.damage_min Creature.damage_max Creature.special_uses].
  split; [repeat split |]. do 3 (split; [reflexivity |]).
  split; [assumption |]. split; [assumption |].
  intros Hle. apply (scaled_dmg_mono (Creature.damage_min e) (Creature.damage_max e) g);
    [lia | lia | assumption | assumption].
Qed.

Lemma spawn_enemies_run sprites level :
  sprites <> [] ->
  forall count g, exists g',
    Main.spawn_enemies count level sprites g
    = Ok (replicate count (Creature.init "enemy" level)) g'.
Proof.
  intros Hne. induction count as [|count IH]; intros g; cbn [Main.spawn_enemies replicate].
  - eexists. reflexivity.
  - destruct (RandomFacts.choice_ok sprites g Hne) as (x & _ & Hx).
    destruct (IH (Random.advance g)) as (g' & Hg').
    exists g'. unfold bind. rewrite Hx, Hg'. reflexivity.
Qed.

(** *** The battle [_start_battle] creates *)

Lemma configured_player_ok player :
  -6 <= Creature.level player < 2 ^ 35 ->
  let p := Creature.reset_after_battle (Main.configure Main.PLAYER_STATS player) in
  rolls_ok p /\ special_ok p.
Proof.
  intros Hl p. change (2 ^ 35) with 34359738368 in Hl. split.
  - unfold rolls_ok. cbn. lia.
  - apply special_ok_of_range; cbn; change (2 ^ 40) with 1099511627776; lia.
Qed.

Lemma configured_foe element level :
  let e := Creature.reset_after_battle
             (Main.configure Main.ENEMY_STATS (Creature.init element level)) in
  Creature.level e = level /\
  Creature.max_health e = 90 + level * 22 /\
  Creature.current_health e = 90 + level * 22 /\
  Creature.damage_min e = 10 + level * 2 /\
  Creature.damage_max e = 16 + level * 2.
Proof. cbn. repeat split. Qed.

Lemma start_battle_run (player : Creature.t) (boss_sprites enemy_sprites : list string)
    (lay : Layout) (g : Random.t) :
  0 <= Creature.level player < 2 ^ 35 ->
  boss_sprites <> [] -> enemy_sprites <> [] ->
  exists enemy is_boss g',
    Main._start_battle player boss_sprites enemy_sprites lay g
    = Ok (init (Creature.reset_after_battle (Main.configure Main.PLAYER_STATS player))
               enemy lay g', is_boss) g' /\
    let es := match enemy with Several cs => cs | Single c => [c] end in
    (1 <= length es <= 3)%nat /\
    (is_boss = true -> length es = 1%nat) /\
    Forall (fun e => Creature.level e = Creature.level player /\
                     Creature.current_health e = Creature.max_health e /\
                     90 + 22 * Creature.level player <= Creature.max_health e /\
                     10 + 2 * Creature.level player <= Creature.damage_min e /\
                     Creature.damage_min e <= Creature.damage_max e) es.
Proof.
  intros Hl Hb He. change (2 ^ 35) with 34359738368 in Hl.
  unfold Main._start_battle. unfold bind at 1.
  unfold Main.random_random, bind at 1, Random.randbelow at 1, ret at 1.
  destruct (SFltb _ _).
  - unfold bind at 1.
    destruct (RandomFacts.choice_ok boss_sprites (Random.advance g) Hb) as (x & _ & ->).
    cbv beta iota zeta delta [Main._configure_for_battle].
    set (e := Creature.reset_after_battle
                (Main.configure Main.ENEMY_STATS
                   (Creature.init "boss" (Creature.level player)))).
    destruct (configured_foe "boss" (Creature.level player))
      as (Hlev & Hmh & Hch & Hdmin & Hdmax). fold e in Hlev, Hmh, Hch, Hdmin, Hdmax.
    destruct (boss_scaled_run e (Random.advance (Random.advance g)))
      as (boss & Hrun & Hstats & _ & Hfull & Hhp & Hbmin & Hbmax & Hok);
      [change (2 ^ 40) with 1099511627776; lia ..|].
    unfold bind at 1. rewrite Hrun. unfold bind, get, ret.
    exists (Single boss), true, (Random.advance (Random.advance g)).
    split; [reflexivity |]. cbv zeta. cbn [length].
    split; [lia |]. split; [reflexivity |].
    constructor; [| constructor].
    destruct Hstats as (_ & Hl' & _). cbn [Creature.level] in Hl'.
    split; [congruence |]. split; [assumption |].
    assert (4 * (5 * Creature.max_health e / 4) > 5 * Creature.max_health e - 4).
    { pose proof (Z.mul_succ_div_gt (5 * Creature.max_health e) 4 ltac:(lia)). lia. }
    split; [lia |]. split; [lia |]. apply Hok. lia.
  - unfold bind at 1. rewrite RandomFacts.randint_ok by lia.
    set (k := 1 + Random.next (Random.advance g) mod (3 - 1 + 1)).
    assert (Hk : 1 <= k <= 3) by (apply RandomFacts.randint_range; lia).
    unfold bind at 1.
    destruct (spawn_enemies_run enemy_sprites (Creature.level player) He (Z.to_nat k)
                (Random.advance (Random.advance g))) as (g' & ->).
    cbv beta iota zeta delta [Main._configure_for_battle]. unfold bind, get, ret.
    eexists (Several _), false, g'. split; [reflexivity |]. cbv zeta.
    rewrite length_map, length_replicate.
    split; [lia |]. split; [discriminate |].
    apply Forall_forall. intros e' Hin. apply list_elem_of_fmap in Hin as (e0 & -> & Hin).
    apply elem_of_replicate in Hin as [-> _]. cbn. lia.
Qed.

Lemma alive_of_all es :
  Forall (fun e => 0 < Creature.current_health e) es -> alive_of es = es.
Proof.
  induction 1 as [|e es He _ IH]; [reflexivity |].
  unfold alive_of in *. cbn [List.filter]. unfold alive at 1, Creature.is_defeated.
  destruct (Z.leb_spec (Creature.current_health e) 0); [lia |]. cbn [negb]. f_equal. exact IH.
Qed.

End MainFacts.

Module MainExtra.
Import Py Battle BattleFacts View BattleExtraFacts MainFacts.

(** X23. The battles the game starts are sound. For a player of a level
    from 0 to below 2^35 and sprites to choose from, [_start_battle] returns,
    whatever the generator draws: a boss battle against one enemy or an
    ordinary one against one to three enemies of the level of the player,
    all at full health and alive, the player configured and restored, the
    battle undecided with its first enemy targeted and its positions laid
    out; no roll of that battle can raise, so every sequence of events whose
    positions, where the battle looks at them, fit is handled without an
    exception. *)
Theorem started_battle_is_sound (player : Creature.t)
    (boss_sprites enemy_sprites : list string) (lay : Layout) (g : Random.t) :
  0 <= Creature.level player < 2 ^ 35 ->
  boss_sprites <> [] -> enemy_sprites <> [] ->
  exists b is_boss,
    Main._start_battle player boss_sprites enemy_sprites lay g = Ok (b, is_boss) (random b) /\
    Battle.player b = Creature.reset_after_battle (Main.configure Main.PLAYER_STATS player) /\
    layout b = lay /\ outcome b = None /\ target_index b = 0 /\ popups b = [] /\
    (1 <= length (enemies b) <= 3)%nat /\
    (is_boss = true -> length (enemies b) = 1%nat) /\
    Forall (fun e => Creature.level e = Creature.level player /\
                     Creature.current_health e = Creature.max_health e) (enemies b) /\
    _alive_enemies b = enemies b /\
    wf b /\ target_ok b /\ in_sync b /\
    forall events, clicks_fit events b = true ->
                   handle_events events b = Ok tt (run events b).
Proof.
  intros Hl Hb He.
  destruct (start_battle_run player boss_sprites enemy_sprites lay g Hl Hb He)
    as (enemy & is_boss & g' & Hrun & Hlen & Hboss & Hes).
  cbv zeta in Hlen, Hboss, Hes.
  set (p := Creature.reset_after_battle (Main.configure Main.PLAYER_STATS player)) in *.
  exists (init p enemy lay g'), is_boss.
  assert (Hen : enemies (init p enemy lay g')
                = match enemy with Several cs => cs | Single c => [c] end) by reflexivity.
  destruct (configured_player_ok player) as [Hrolls Hspecial]; [lia |]. fold p in Hrolls, Hspecial.
  destruct (init_wf p enemy lay g' Hrolls Hspecial) as (Hwf & Htarget & Hout).
  { eapply Forall_impl; [exact Hes |]. intros e (_ & _ & _ & _ & H). exact H. }
  split; [exact Hrun |]. do 5 (split; [reflexivity |]).
  rewrite Hen. split; [exact Hlen |]. split; [exact Hboss |].
  split; [eapply Forall_impl; [exact Hes |]; intros e (H1 & H2 & _); auto |].
  split.
  { unfold _alive_enemies. rewrite Hen. apply alive_of_all.
    eapply Forall_impl; [exact Hes |]. intros e (_ & -> & H & _). lia. }
  split; [exact Hwf |]. split; [exact Htarget |]. split; [apply init_in_sync |].
  intros events _. apply handle_events_run; assumption.
Qed.

Lemma started_battle_is_sound_witness :
  exists b is_boss,
    Main._start_battle (Main._create_creature "fire") ["boss.png"] ["enemy.png"]
                       Scenario.screen Scenario.dice = Ok (b, is_boss) (random b) /\
    wf b /\
    forall events, clicks_fit events b = true ->
                   handle_events events b = Ok tt (run events b).
Proof.
  destruct (started_battle_is_sound (Main._create_creature "fire") ["boss.png"] ["enemy.png"]
              Scenario.screen Scenario.dice)
    as (b & is_boss & Hrun & _ & _ & _ & _ & _ & _ & _ & _ & _ & Hwf & _ & _ & Hev);
    [vm_compute; split; [discriminate | reflexivity] | discriminate | discriminate |].
  exists b, is_boss. auto.
Defined.

(** X24. The boss scaling of [_start_battle]. For an enemy whose stats are
    not negative and below 2^40, the three products are computed without an
    exception and draw nothing: the maximal health becomes the integer part
    of 5/4 of it, exactly, and the health is set to it; each bound [d] of
    the damage becomes a [d'] with [23 d - 20 <= 20 d' <= 23 d], that is the
    integer part of 23/20 of it or, which can only be when 23 d / 20 is an
    integer, one less (the literal 1.15 lies below 23/20). No stat decreases
    and a damage range that was not empty is not empty after. *)
Theorem boss_scaling (e : Creature.t) (g : Random.t) :
  0 <= Creature.max_health e < 2 ^ 40 ->
  0 <= Creature.damage_min e < 2 ^ 40 -> 0 <= Creature.damage_max e < 2 ^ 40 ->
  exists boss,
    Main.boss_scaled e g = Ok boss g /\
    (Creature.element boss, Creature.level boss,
     Creature.max_special_uses boss, Creature.special_uses boss)
    = (Creature.element e, Creature.level e,
       Creature.max_special_uses e, Creature.special_uses e) /\
    Creature.current_health boss = Creature.max_health boss /\
    Creature.max_health boss = 5 * Creature.max_health e / 4 /\
    23 * Creature.damage_min e - 20 <= 20 * Creature.damage_min boss
      <= 23 * Creature.damage_min e /\
    23 * Creature.damage_max e - 20 <= 20 * Creature.damage_max boss
      <= 23 * Creature.damage_max e /\
    Creature.max_health e <= Creature.max_health boss /\
    Creature.damage_min e <= Creature.damage_min boss /\
    Creature.damage_max e <= Creature.damage_max boss /\
    (Creature.damage_min e <= Creature.damage_max e ->
     Creature.damage_min boss <= Creature.damage_max boss).
Proof.
  intros Hh Hmin Hmax.
  destruct (scaled_dmg (Creature.damage_min e) g Hmin) as (r1 & H1 & Hb1 & Hge1).
  destruct (scaled_dmg (Creature.damage_max e) g Hmax) as (r2 & H2 & Hb2 & Hge2).
  eexists. unfold Main.boss_scaled, bind.
  rewrite scaled_hp by assumption. rewrite H1, H2.
  split; [reflexivity |].
  cbn [Creature.element Creature.level Creature.max_special_uses Creature.max_health
       Creature.current_health Creature.damage_min Creature.damage_max Creature.special_uses].
  do 3 (split; [reflexivity |]). split; [assumption |]. split; [assumption |].
  split.
  { pose proof (Z.mul_succ_div_gt (5 * Creature.max_health e) 4 ltac:(lia)). lia. }
  split; [assumption |]. split; [assumption |].
  intros Hle. apply (scaled_dmg_mono (Creature.damage_min e) (Creature.damage_max e) g);
    [lia | lia | assumption | assumption].
Qed.

Lemma boss_scaling_witness :
  exists boss,
    Main.boss_scaled (Scenario.fighter 112 12 100 1) Scenario.dice = Ok boss Scenario.dice /\
    Creature.max_health boss = 140 /\
    20 * Creature.damage_min boss <= 23 * 12 /\ 20 * Creature.damage_max boss <= 23 * 100.
Proof.
  destruct (boss_scaling (Scenario.fighter 112 12 100 1) Scenario.dice)
    as (boss & Hrun & _ & _ & Hhp & Hmin & Hmax & _);
    [vm_compute; split; [discriminate | reflexivity] ..|].
  exists boss. split; [exact Hrun |]. split; [exact Hhp |]. split; [apply Hmin | apply Hmax].
Defined.

(** X25. Winning levels the player up and leaves no trace of the battle.
    Whatever the battle did to the health and to the special uses of the
    player, the update of a won battle gives the player of one level more,
    with the stats of that level, at full health and with the special uses
    restored; the reset of the win screen and the configuration of the
    next battle then change nothing of it. *)
Theorem win_levels_the_player_up (p p' : Creature.t) (enemy : EnemyArg) :
  same_stats p p' ->
  let q := Main.level_up_after_win p' in
  q = Main.level_up_after_win p /\
  Creature.level q = Creature.level p + 1 /\
  Creature.max_health q = 100 + 25 * Creature.level q /\
  Creature.current_health q = Creature.max_health q /\
  Creature.damage_min q = 12 + 2 * Creature.level q /\
  Creature.damage_max q = 18 + 2 * Creature.level q /\
  Creature.special_uses q = Creature.max_special_uses p /\
  Creature.reset_after_battle q = q /\
  fst (Main._configure_for_battle q enemy) = q.
Proof.
  intros (Hel & Hlev & _ & _ & _ & Hsp) q. subst q.
  unfold Main.level_up_after_win, Main.configure, Main._configure_for_battle,
    Creature.reset_after_battle, Creature.configure_stats, Creature.level_up.
  cbn. rewrite Hel, Hlev, Hsp. repeat split; lia.
Qed.

Lemma win_levels_the_player_up_witness :
  Creature.level (Main.level_up_after_win (Creature.take_damage 30 Scenario.hero)) = 2.
Proof.
  destruct (win_levels_the_player_up Scenario.hero (Creature.take_damage 30 Scenario.hero)
              (Several [])) as (_ & H & _); [repeat split | exact H].
Defined.

End MainExtra.

Module ScreenFacts.
Import Py Battle BattleFacts View BattleExtraFacts.

Lemma and_then_returned shown next :
  Screen.and_then (shown, Screen.Returned) next = (shown ++ next.1, next.2).
Proof. reflexivity. Qed.

Lemma and_then_end first next e :
  (Screen.and_then first next).2 = e ->
  (first.2 = e /\ e <> Screen.Returned) \/ (first.2 = Screen.Returned /\ next.2 = e).
Proof.
  destruct first as [shown []]; cbn; intros <-; auto; left; split; congruence.
Qed.

Lemma show_all shows items :
  (forall item, shows item = true) -> Screen.show shows items = (items, Screen.Returned).
Proof.
  intros Hall. induction items as [|item items IH]; [reflexivity |].
  cbn [Screen.show]. rewrite Hall, IH. reflexivity.
Qed.

Lemma show_no_index_error shows items :
  (Screen.show shows items).2 <> Screen.RaisedIndexError.
Proof.
  induction items as [|item items IH]; cbn [Screen.show]; [discriminate |].
  destruct (shows item); [| discriminate].
  rewrite and_then_returned. exact IH.
Qed.

Lemma alive_indices_lookup s idx r :
  _alive_indices s !! idx = Some r ->
  exists e, enemies s !! r = Some e /\ _alive_enemies s !! idx = Some e.
Proof.
  unfold _alive_indices, _alive_enemies. intros H.
  apply alive_from_lookup in H as (e & _ & He & _ & Hk).
  rewrite Nat.sub_0_r in He. eauto.
Qed.

(** One turn of the loop, when its three subscripts are in range. *)
Lemma draw_enemies_step shows s idx r rest e e0 p :
  _alive_enemies s !! idx = Some e -> enemies s !! r = Some e0 ->
  enemy_positions s !! idx = Some p ->
  Screen.draw_enemies shows s idx (r :: rest)
  = Screen.and_then
      (Screen.show shows
         (Screen.DrawnCreature e (Screen.EnemySprite r) p
            (if 1 <? Z.of_nat (length (_alive_enemies s))
             then "ENEMY " +:+ Py.str (Z.of_nat idx + 1) else "ENEMY")
          :: (if Z.of_nat idx =? target_index s
              then [Screen.DrawnHighlight (Screen.highlight_rect (layout s) p)] else [])))
      (Screen.draw_enemies shows s (S idx) rest).
Proof. intros H1 H2 H3. cbn [Screen.draw_enemies]. rewrite H1, H2, H3. reflexivity. Qed.

Lemma drop_alive_indices s idx r rest :
  r :: rest = drop idx (_alive_indices s) ->
  _alive_indices s !! idx = Some r /\ rest = drop (S idx) (_alive_indices s).
Proof.
  intros Hrest.
  assert (Hr : _alive_indices s !! idx = Some r).
  { rewrite <- (Nat.add_0_r idx), <- lookup_drop, <- Hrest. reflexivity. }
  split; [exact Hr |]. rewrite (drop_S _ _ _ Hr) in Hrest. congruence.
Qed.

Lemma draw_enemies_no_index_error shows s : forall rest idx,
  rest = drop idx (_alive_indices s) ->
  (length (_alive_enemies s) <= length (enemy_positions s))%nat ->
  (Screen.draw_enemies shows s idx rest).2 <> Screen.RaisedIndexError.
Proof.
  induction rest as [|r rest IH]; intros idx Hrest Hpos; [discriminate |].
  destruct (drop_alive_indices s idx r rest Hrest) as [Hr Hrest'].
  destruct (alive_indices_lookup s idx r Hr) as (e & He & Hal).
  assert (Hlt : (idx < length (_alive_enemies s))%nat) by (apply lookup_lt_is_Some; eauto).
  destruct (lookup_lt_is_Some_2 (enemy_positions s) idx ltac:(lia)) as [p0 Hp0].
  rewrite (draw_enemies_step shows s idx r rest e e p0) by assumption.
  intros Hend. apply and_then_end in Hend as [[Hend _] | [_ Hend]].
  - exact (show_no_index_error _ _ Hend).
  - exact (IH (S idx) Hrest' Hpos Hend).
Qed.

Lemma draw_enemies_run shows s :
  (forall item, shows item = true) ->
  forall rest idx,
  rest = drop idx (_alive_indices s) ->
  (length (_alive_enemies s) <= length (enemy_positions s))%nat ->
  exists drawn,
    Screen.draw_enemies shows s idx rest = (drawn, Screen.Returned) /\
    Screen.creatures_drawn drawn = drop idx (zip (_alive_enemies s) (enemy_positions s)) /\
    forall p, enemy_positions s !! Z.to_nat (target_index s) = Some p ->
      Screen.highlights drawn
      = if (Z.of_nat idx <=? target_index s)
           && (target_index s <? Z.of_nat (length (_alive_enemies s)))
        then [Screen.highlight_rect (layout s) p] else [].
Proof.
  intros Hall.
  assert (Hlen : length (_alive_indices s) = length (_alive_enemies s))
    by apply alive_from_length.
  induction rest as [|r rest IH]; intros idx Hrest Hpos.
  - exists []. split; [reflexivity |].
    assert (Hge : (length (_alive_enemies s) <= idx)%nat).
    { rewrite <- Hlen. destruct (Nat.le_gt_cases (length (_alive_indices s)) idx) as [|Hlt];
        [assumption |].
      apply (f_equal length) in Hrest. rewrite length_drop in Hrest. cbn in Hrest. lia. }
    split.
    + symmetry. apply drop_ge. rewrite length_zip_with. lia.
    + intros p _.
      destruct (Z.leb_spec (Z.of_nat idx) (target_index s)); [| reflexivity].
      destruct (Z.ltb_spec (target_index s) (Z.of_nat (length (_alive_enemies s))));
        [lia | reflexivity].
  - destruct (drop_alive_indices s idx r rest Hrest) as [Hr Hrest'].
    destruct (alive_indices_lookup s idx r Hr) as (e & He & Hal).
    assert (Hlt : (idx < length (_alive_enemies s))%nat)
      by (apply lookup_lt_is_Some; eauto).
    destruct (lookup_lt_is_Some_2 (enemy_positions s) idx ltac:(lia)) as [p0 Hp0].
    destruct (IH (S idx) Hrest' Hpos) as (drawn & Hrun & Hcs & Hhs).
    rewrite (draw_enemies_step shows s idx r rest e e p0) by assumption.
    rewrite show_all by assumption. rewrite and_then_returned, Hrun. cbn [fst snd].
    eexists. split; [reflexivity |]. split.
    + assert (Hz : zip (_alive_enemies s) (enemy_positions s) !! idx = Some (e, p0)).
      { rewrite lookup_zip_with, Hal, Hp0. reflexivity. }
      rewrite (drop_S _ _ _ Hz), <- Hcs.
      unfold Screen.creatures_drawn. cbn [app omap list_omap].
      destruct (Z.of_nat idx =? target_index s); reflexivity.
    + intros p Hp. specialize (Hhs p Hp).
      unfold Screen.highlights in *. cbn [app omap list_omap].
      destruct (Z.eqb_spec (Z.of_nat idx) (target_index s)) as [Heq|Hne].
      * assert (p0 = p) by (rewrite <- Heq, Nat2Z.id in Hp; congruence). subst p0.
        cbn [app omap list_omap]. rewrite Hhs.
        destruct (Z.leb_spec (Z.of_nat idx) (target_index s)); [| lia].
        destruct (Z.ltb_spec (target_index s) (Z.of_nat (length (_alive_enemies s)))); [| lia].
        destruct (Z.leb_spec (Z.of_nat (S idx)) (target_index s)); [lia |]. reflexivity.
      * cbn [app]. rewrite Hhs.
        destruct (Z.leb_spec (Z.of_nat idx) (target_index s));
          destruct (Z.leb_spec (Z.of_nat (S idx)) (target_index s)); try lia; reflexivity.
Qed.

Lemma draw_enemies_out shows s :
  (forall item, shows item = true) ->
  forall rest idx,
  rest = drop idx (_alive_indices s) ->
  (length (enemy_positions s) < length (_alive_enemies s))%nat ->
  (idx <= length (enemy_positions s))%nat ->
  (Screen.draw_enemies shows s idx rest).2 = Screen.RaisedIndexError.
Proof.
  intros Hall.
  assert (Hlen : length (_alive_indices s) = length (_alive_enemies s))
    by apply alive_from_length.
  induction rest as [|r rest IH]; intros idx Hrest Hpos Hidx.
  - apply (f_equal length) in Hrest. rewrite length_drop in Hrest. cbn in Hrest. lia.
  - destruct (drop_alive_indices s idx r rest Hrest) as [Hr Hrest'].
    destruct (alive_indices_lookup s idx r Hr) as (e & He & Hal).
    destruct (enemy_positions s !! idx) as [p0|] eqn:Hp0.
    + rewrite (draw_enemies_step shows s idx r rest e e p0) by assumption.
      rewrite show_all by assumption. rewrite and_then_returned. cbn [snd].
      apply lookup_lt_Some in Hp0. apply IH; [assumption | assumption | lia].
    + cbn [Screen.draw_enemies]. rewrite Hal, He, Hp0. reflexivity.
Qed.

End ScreenFacts.

Module ScreenExtra.
Import Py Battle BattleFacts View BattleExtraFacts ScreenFacts.

(** X26. [draw] shows the battle as it is. When there is a position for
    each alive enemy, which every event keeps, no subscript of [draw] is out
    of range: whichever of the calls that put things on the screen raise,
    [draw] does not end with an [IndexError]. If none of those calls raises,
    [draw] returns, having drawn the player, then each alive enemy once, in
    order, at its position; it has highlighted exactly one sprite, that of the
    target, when the target index designates an alive enemy, and none when no
    enemy is alive. With fewer positions than alive enemies, and no other
    call raising before, it ends with an [IndexError]. *)
Theorem draw_shows_the_alive_enemies (shows : Screen.Drawn -> bool)
    (mouse : option (Z * Z)) (s : t) :
  ((length (_alive_enemies s) <= length (enemy_positions s))%nat ->
   (Screen.draw shows mouse s).2 <> Screen.RaisedIndexError /\
   ((forall item, shows item = true) -> mouse <> None ->
    exists drawn,
      Screen.draw shows mouse s = (drawn, Screen.Returned) /\
      Screen.creatures_drawn drawn
      = (player s, left_pos (layout s)) :: zip (_alive_enemies s) (enemy_positions s) /\
      length (Screen.creatures_drawn drawn) = S (length (_alive_enemies s)) /\
      (_alive_enemies s <> [] -> target_ok s ->
       exists p, enemy_positions s !! Z.to_nat (target_index s) = Some p /\
                 Screen.highlights drawn = [Screen.highlight_rect (layout s) p]) /\
      (_alive_enemies s = [] -> Screen.highlights drawn = []))) /\
  ((length (enemy_positions s) < length (_alive_enemies s))%nat ->
   (forall item, shows item = true) ->
   (Screen.draw shows mouse s).2 = Screen.RaisedIndexError).
Proof.
  split.
  - intros Hpos. split.
    + unfold Screen.draw. intros Hend.
      apply and_then_end in Hend as [[Hend _] | [_ Hend]];
        [exact (show_no_index_error _ _ Hend) |].
      apply and_then_end in Hend as [[Hend _] | [_ Hend]].
      * exact (draw_enemies_no_index_error shows s _ 0 eq_refl Hpos Hend).
      * destruct mouse; [exact (show_no_index_error _ _ Hend) | discriminate].
    + intros Hall Hmouse. destruct mouse as [mouse_pos|]; [| congruence].
      destruct (draw_enemies_run shows s Hall (_alive_indices s) 0 eq_refl Hpos)
        as (drawn & Hrun & Hcs & Hhs).
      unfold Screen.draw. rewrite !show_all, Hrun by assumption.
      rewrite !and_then_returned. cbn [fst snd].
      eexists. split; [reflexivity |].
      assert (Hcreatures : forall pre post,
                Screen.creatures_drawn
                  ([Screen.DrawnCreature (player s) Screen.PlayerSprite (left_pos (layout s))
                                         "PLAYER"] ++ drawn ++ pre
                                         ++ List.map Screen.DrawnPopup post)
                = (player s, left_pos (layout s)) :: Screen.creatures_drawn drawn
                    ++ Screen.creatures_drawn pre).
      { intros pre post. unfold Screen.creatures_drawn. cbn [app omap list_omap]. f_equal.
        rewrite !omap_app.
        replace (omap _ (List.map Screen.DrawnPopup post))
          with (@nil (Creature.t * (Z * Z)));
          [rewrite app_nil_r; reflexivity |].
        induction post; [reflexivity | assumption]. }
      assert (Hhighlights : forall pre post,
                (forall d, d ∈ pre ->
                           match d with Screen.DrawnHighlight _ => False | _ => True end) ->
                Screen.highlights
                  ([Screen.DrawnCreature (player s) Screen.PlayerSprite (left_pos (layout s))
                                         "PLAYER"] ++ drawn ++ pre
                                         ++ List.map Screen.DrawnPopup post)
                = Screen.highlights drawn).
      { intros pre post Hpre. unfold Screen.highlights. cbn [app omap list_omap].
        rewrite !omap_app.
        replace (omap _ (List.map Screen.DrawnPopup post)) with (@nil Rect)
          by (induction post; [reflexivity | assumption]).
        replace (omap _ pre) with (@nil Rect); [rewrite !app_nil_r; reflexivity |].
        induction pre as [|d pre IH]; [reflexivity |]. cbn [omap list_omap].
        pose proof (Hpre d ltac:(left)) as Hd. destruct d; try contradiction;
          apply IH; intros d' Hd'; apply Hpre; right; exact Hd'. }
      rewrite Hcreatures, Hhighlights.
      2: { intros d Hd. repeat (apply elem_of_cons in Hd as [->|Hd]; [exact I |]).
           apply elem_of_nil in Hd. contradiction. }
      cbn [Screen.creatures_drawn omap list_omap app]. rewrite app_nil_r.
      change (omap _ drawn) with (Screen.creatures_drawn drawn).
      rewrite Hcs. cbn [drop].
      split; [reflexivity |]. split.
      { change (S (length (zip (_alive_enemies s) (enemy_positions s)))
                = S (length (_alive_enemies s))).
        rewrite length_zip_with. lia. }
      split.
      * intros Hne Ht. specialize (Ht Hne).
        destruct (lookup_lt_is_Some_2 (enemy_positions s) (Z.to_nat (target_index s))
                    ltac:(lia)) as [p Hp].
        exists p. split; [exact Hp |]. rewrite (Hhs p Hp).
        destruct (Z.leb_spec (Z.of_nat 0) (target_index s)); [| lia].
        destruct (Z.ltb_spec (target_index s) (Z.of_nat (length (_alive_enemies s)))); [| lia].
        reflexivity.
      * intros Hnil.
        assert (drawn = []); [| subst drawn; reflexivity].
        assert (Hidx : _alive_indices s = []) by (apply alive_from_nil; exact Hnil).
        rewrite Hidx in Hrun. cbn [Screen.draw_enemies] in Hrun. congruence.
  - intros Hpos Hall. unfold Screen.draw.
    rewrite show_all by assumption. rewrite and_then_returned. cbn [snd].
    pose proof (draw_enemies_out shows s Hall (_alive_indices s) 0 eq_refl Hpos ltac:(lia))
      as Hout.
    destruct (Screen.draw_enemies shows s 0 (_alive_indices s)) as [shown e].
    cbn [snd] in Hout. subst e. reflexivity.
Qed.

Lemma draw_shows_the_alive_enemies_witness :
  exists drawn,
    Screen.draw (fun _ => true) (Some (0, 0)) Scenario.brawl = (drawn, Screen.Returned) /\
    length (Screen.creatures_drawn drawn) = 4%nat /\
    length (Screen.highlights drawn) = 1%nat.
Proof.
  destruct (draw_shows_the_alive_enemies (fun _ => true) (Some (0, 0)) Scenario.brawl)
    as [H _].
  destruct H as (_ & H); [vm_compute; lia |].
  destruct H as (drawn & Hrun & _ & Hlen & Hh & _); [reflexivity | discriminate |].
  exists drawn. split; [exact Hrun |]. split; [exact Hlen |].
  destruct Hh as (p & _ & ->); [vm_compute; discriminate | | reflexivity].
  intros _. vm_compute. split; [discriminate | reflexivity].
Defined.

End ScreenExtra.
